(** * MDM server: wire codec, device registry and command queue

    A shallow embedding of [src/mdm-server-standalone.ts]: the plist helpers
    [parsePlist] and [toPlist], the check-in handlers, the command endpoint
    and the command-submission endpoints, followed by the properties of the
    protocol state machine and of the codec.

    Conventions of the embedding.
    - A JavaScript string is a [string]: a sequence of code units, here
      restricted to the code units 0..255.
    - A JavaScript number is a [number]: an exact decimal (an integer, a
      non-integral finite decimal, or an infinity).  Rounding to IEEE doubles
      is not modelled, and there is no negative zero.
    - [new Date()] and [uuidv4()] are inputs of the request that uses them;
      an identifier made by [uuidv4()] consists of hexadecimal digits and
      dashes.
    - A request to [/checkin] or [/mdm] carries a text body, and a request
      to the REST API a JSON object; without them the source throws and
      answers with status 500, which is not modelled.
    - [Map] objects are finite maps; the objects stored in them are updated
      in place in the source and by re-insertion here.
    - A log line that prints a value of a JSON request body throws when
      the value has no text ([stringifies]); it is modelled by what
      follows from the exception: the assignments made before the line
      stand, and the request is answered with status 500.  The other log
      lines print decoded leaves and fields of device records, which
      always have a text, and are left out. *)

From Stdlib Require Import ZArith Ascii String Lia Bool.
From stdpp Require Import base option list gmap strings fin_maps countable.

Local Open Scope Z_scope.

(* ===================================================================== *)
(** * Strings *)
(* ===================================================================== *)

Module Str.

Definition dquote : string := String "034"%char "".
Definition newline : string := String "010"%char "".

(** [strip_prefix l s] is [Some r] when [s = l ++ r]. *)
Fixpoint strip_prefix (l s : string) : option string :=
  match l with
  | EmptyString => Some s
  | String a l' =>
      match s with
      | EmptyString => None
      | String b s' => if Ascii.eqb b a then strip_prefix l' s' else None
      end
  end.

Fixpoint take (n : nat) (s : string) : string :=
  match n, s with
  | S n', String c s' => String c (take n' s')
  | _, _ => EmptyString
  end.

Fixpoint drop (n : nat) (s : string) : string :=
  match n, s with
  | S n', String _ s' => drop n' s'
  | _, _ => s
  end.

Fixpoint all (p : ascii -> bool) (s : string) : bool :=
  match s with
  | EmptyString => true
  | String c s' => p c && all p s'
  end.

Definition is_empty (s : string) : bool :=
  match s with EmptyString => true | _ => false end.

(** The longest prefix whose characters satisfy [p], and the rest. *)
Fixpoint span (p : ascii -> bool) (s : string) : string * string :=
  match s with
  | EmptyString => (EmptyString, EmptyString)
  | String c s' =>
      if p c then let '(a, b) := span p s' in (String c a, b)
      else (EmptyString, s)
  end.

Fixpoint concat (l : list string) : string :=
  match l with
  | [] => EmptyString
  | s :: l' => s +:+ concat l'
  end.

Fixpoint repeat (c : ascii) (n : nat) : string :=
  match n with
  | O => EmptyString
  | S n' => String c (repeat c n')
  end.

(** [s.replace(/c/g, by)] for a one-character pattern. *)
Fixpoint replaceAll (c : ascii) (by_ : string) (s : string) : string :=
  match s with
  | EmptyString => EmptyString
  | String a s' =>
      if Ascii.eqb a c then by_ +:+ replaceAll c by_ s'
      else String a (replaceAll c by_ s')
  end.

(** [s.toUpperCase()] on the letters [a]..[z]. *)
Definition upper (c : ascii) : ascii :=
  let n := nat_of_ascii c in
  if (Nat.leb 97 n && Nat.leb n 122)%bool then ascii_of_nat (n - 32) else c.

Fixpoint toUpperCase (s : string) : string :=
  match s with
  | EmptyString => EmptyString
  | String c s' => String (upper c) (toUpperCase s')
  end.

End Str.

(* ===================================================================== *)
(** * JavaScript numbers: [Number(string)], [String(number)] *)
(* ===================================================================== *)

Module JSNumber.

(** [NFrac m e] is [m * 10^(-e)] with [m] not a multiple of ten. *)
Inductive number :=
| NInt (z : Z)
| NFrac (m : Z) (e : positive)
| NInfinity (neg : bool).

Definition isInteger (n : number) : bool :=
  match n with NInt _ => true | _ => false end.

Definition negate (n : number) : number :=
  match n with
  | NInt z => NInt (- z)
  | NFrac m e => NFrac (- m) e
  | NInfinity b => NInfinity (negb b)
  end.

(** ** Characters *)

Definition codeUnit (c : ascii) : Z := Z.of_nat (nat_of_ascii c).

(** StrWhiteSpaceChar, which is also the class [\s] of regular
    expressions, among the code units 0..255: TAB, LF, VT, FF, CR, SP and
    NBSP. *)
Definition isWhiteSpace (c : ascii) : bool :=
  let n := codeUnit c in
  ((9 <=? n) && (n <=? 13)) || (n =? 32) || (n =? 160).

(** The characters [0]..[9] are the code units 48..57. *)
Definition digit (c : ascii) : option Z :=
  let n := codeUnit c in
  if (48 <=? n) && (n <=? 57) then Some (n - 48) else None.

(** [a]..[f] are the code units 97..102 and [A]..[F] are 65..70. *)
Definition hexDigit (c : ascii) : option Z :=
  let n := codeUnit c in
  if (97 <=? n) && (n <=? 102) then Some (n - 87)
  else if (65 <=? n) && (n <=? 70) then Some (n - 55)
  else digit c.

Definition digitIn (base : Z) (c : ascii) : option Z :=
  match hexDigit c with
  | Some d => if d <? base then Some d else None
  | None => None
  end.

Definition isDigit (c : ascii) : bool :=
  match digit c with Some _ => true | None => false end.

Definition digitChar (d : Z) : ascii :=
  ascii_of_nat (48 + Z.to_nat d).

(** ** Numerals *)

(** The value of a numeral in base [base], most significant digit first;
    [None] when a character is not a digit of that base. *)
Fixpoint numeral (base : Z) (acc : Z) (s : string) : option Z :=
  match s with
  | EmptyString => Some acc
  | String c s' =>
      match digitIn base c with
      | Some d => numeral base (base * acc + d) s'
      | None => None
      end
  end.

Definition nonEmptyNumeral (base : Z) (s : string) : option Z :=
  if Str.is_empty s then None else numeral base 0 s.

Fixpoint digitsFuel (fuel : nat) (n : Z) (acc : string) : string :=
  let acc' := String (digitChar (n mod 10)) acc in
  match fuel with
  | O => acc'
  | S fuel' => if n / 10 =? 0 then acc' else digitsFuel fuel' (n / 10) acc'
  end.

(** The decimal digits of [n >= 0], most significant first. *)
Definition digits (n : Z) : string :=
  digitsFuel (Z.to_nat (Z.log2 n)) n EmptyString.

(** ** StringToNumber *)

Fixpoint trimEnd (s : string) : string :=
  match s with
  | EmptyString => EmptyString
  | String c s' =>
      let t := trimEnd s' in
      if Str.is_empty t && isWhiteSpace c then EmptyString else String c t
  end.

Fixpoint trimStart (s : string) : string :=
  match s with
  | EmptyString => EmptyString
  | String c s' => if isWhiteSpace c then trimStart s' else s
  end.

Definition trim (s : string) : string := trimEnd (trimStart s).

Fixpoint stripZeros (fuel : nat) (m : Z) (e : Z) : Z * Z :=
  match fuel with
  | O => (m, e)
  | S fuel' =>
      if (e <? 0) && (m mod 10 =? 0) then stripZeros fuel' (m / 10) (e + 1)
      else (m, e)
  end.

(** The number [m * 10^e] in normal form. *)
Definition normalize (m e : Z) : number :=
  if m =? 0 then NInt 0
  else if 0 <=? e then NInt (m * 10 ^ e)
  else
    let '(m', e') := stripZeros (Z.to_nat (- e)) m e in
    if 0 <=? e' then NInt m' else NFrac m' (Z.to_pos (- e')).

(** ExponentPart_opt followed by the end of the literal. *)
Definition parseExponent (s : string) : option Z :=
  match s with
  | EmptyString => Some 0
  | String c r =>
      if Ascii.eqb c "e" || Ascii.eqb c "E" then
        match r with
        | String sign ds =>
            if Ascii.eqb sign "+" then nonEmptyNumeral 10 ds
            else if Ascii.eqb sign "-" then Z.opp <$> nonEmptyNumeral 10 ds
            else nonEmptyNumeral 10 r
        | EmptyString => None
        end
      else None
  end.

(** StrUnsignedDecimalLiteral. *)
Definition parseUnsignedDecimal (s : string) : option number :=
  if String.eqb s "Infinity" then Some (NInfinity false)
  else
    let '(ip, r1) := Str.span isDigit s in
    let '(fp, r2) :=
      match r1 with
      | String c r =>
          if Ascii.eqb c "." then Str.span isDigit r else (EmptyString, r1)
      | EmptyString => (EmptyString, r1)
      end in
    if Str.is_empty ip && Str.is_empty fp then None
    else
      match numeral 10 0 (ip +:+ fp), parseExponent r2 with
      | Some m, Some e => Some (normalize m (e - Z.of_nat (String.length fp)))
      | _, _ => None
      end.

(** StrDecimalLiteral. *)
Definition parseDecimal (s : string) : option number :=
  match s with
  | String c r =>
      if Ascii.eqb c "+" then parseUnsignedDecimal r
      else if Ascii.eqb c "-" then negate <$> parseUnsignedDecimal r
      else parseUnsignedDecimal s
  | EmptyString => parseUnsignedDecimal s
  end.

(** NonDecimalIntegerLiteral: [0x], [0o] and [0b] numerals. *)
Definition parseNonDecimal (s : string) : option number :=
  match s with
  | String z (String p ds) =>
      let base :=
        if Ascii.eqb p "x" || Ascii.eqb p "X" then Some 16
        else if Ascii.eqb p "o" || Ascii.eqb p "O" then Some 8
        else if Ascii.eqb p "b" || Ascii.eqb p "B" then Some 2
        else None in
      match base with
      | Some b =>
          if Ascii.eqb z "0" then NInt <$> nonEmptyNumeral b ds else None
      | None => None
      end
  | _ => None
  end.

(** [Number(s)]; [None] is NaN. *)
Definition Number (s : string) : option number :=
  let t := trim s in
  if Str.is_empty t then Some (NInt 0)
  else
    match parseNonDecimal t with
    | Some n => Some n
    | None => parseDecimal t
    end.

(** ** Number::toString (radix 10) *)

Fixpoint trimZerosEnd (s : string) : string :=
  match s with
  | EmptyString => EmptyString
  | String c s' =>
      let t := trimZerosEnd s' in
      if Str.is_empty t && Ascii.eqb c "0" then EmptyString else String c t
  end.

(** [ds] are the significant digits and [n] the position of the decimal
    point: the value is [0.ds * 10^n]. *)
Definition exponential (ds : string) (n : Z) : string :=
  let mant :=
    match ds with
    | String d (String _ _ as r) => String d ("." +:+ r)
    | _ => ds
    end in
  mant +:+ "e" +:+ (if n - 1 <? 0 then "-" else "+") +:+ digits (Z.abs (n - 1)).

Definition toStringUnsigned (n : number) : string :=
  match n with
  | NInfinity _ => "Infinity"
  | NInt z =>
      if z <? 10 ^ 21 then digits z
      else
        let ds := digits z in
        exponential (trimZerosEnd ds) (Z.of_nat (String.length ds))
  | NFrac m e =>
      let ds := digits m in
      let n := Z.of_nat (String.length ds) - Z.pos e in
      if (0 <? n) && (n <=? 21) then
        Str.take (Z.to_nat n) ds +:+ "." +:+ Str.drop (Z.to_nat n) ds
      else if (-6 <? n) && (n <=? 0) then
        "0." +:+ Str.repeat "0" (Z.to_nat (- n)) +:+ ds
      else exponential ds n
  end.

Definition isNegative (n : number) : bool :=
  match n with
  | NInt z => z <? 0
  | NFrac m _ => m <? 0
  | NInfinity b => b
  end.

Definition toString (n : number) : string :=
  if isNegative n then "-" +:+ toStringUnsigned (negate n)
  else toStringUnsigned n.

End JSNumber.

Export JSNumber.

(* ===================================================================== *)
(** * Regular expressions *)
(* ===================================================================== *)

(** A backtracking matcher for the fragment of JavaScript regular
    expressions the codec uses: literals, quantified character classes
    (greedy or lazy), sequence, alternation and capture groups. *)
Module Regex.

Inductive regex :=
| Lit (l : string)
| Rep (greedy : bool) (min : nat) (cls : ascii -> bool)
| Cat (r1 r2 : regex)
| Alt (r1 r2 : regex)
| Grp (i : nat) (r : regex).

(** Captures: group number and captured text, latest first. *)
Definition captures := list (nat * string).

Fixpoint group (i : nat) (cs : captures) : option string :=
  match cs with
  | [] => None
  | (j, s) :: cs' => if Nat.eqb i j then Some s else group i cs'
  end.

(** The text between the position [s] and the later position [s']. *)
Definition consumed (s s' : string) : string :=
  Str.take (String.length s - String.length s') s.

Section Matcher.
Context {A : Type}.

Definition cont := string -> captures -> option A.

Fixpoint repGreedy (cls : ascii -> bool) (min : nat) (k : cont)
    (s : string) (cs : captures) : option A :=
  let stop := match min with O => k s cs | S _ => None end in
  match s with
  | String c s' =>
      if cls c then
        match repGreedy cls (Nat.pred min) k s' cs with
        | Some a => Some a
        | None => stop
        end
      else stop
  | EmptyString => stop
  end.

Fixpoint repLazy (cls : ascii -> bool) (min : nat) (k : cont)
    (s : string) (cs : captures) : option A :=
  let more :=
    match s with
    | String c s' =>
        if cls c then repLazy cls (Nat.pred min) k s' cs else None
    | EmptyString => None
    end in
  match min with
  | O => match k s cs with Some a => Some a | None => more end
  | S _ => more
  end.

(** [rx r k s cs]: match [r] at the start of [s], then continue with
    [k] on the rest; alternatives are tried in priority order. *)
Fixpoint rx (r : regex) (k : cont) (s : string) (cs : captures)
    : option A :=
  match r with
  | Lit l =>
      match Str.strip_prefix l s with
      | Some s' => k s' cs
      | None => None
      end
  | Rep greedy min cls =>
      if greedy then repGreedy cls min k s cs
      else repLazy cls min k s cs
  | Cat r1 r2 => rx r1 (rx r2 k) s cs
  | Alt r1 r2 =>
      match rx r1 k s cs with
      | Some a => Some a
      | None => rx r2 k s cs
      end
  | Grp i r => rx r (fun s' cs' => k s' ((i, consumed s s') :: cs')) s cs
  end.
End Matcher.

Definition accept : @cont (captures * string) :=
  fun s cs => Some (cs, s).

(** The leftmost match of [r] in [s]: its captures and the text after
    it (the position [lastIndex] of a global regular expression). *)
Fixpoint exec (r : regex) (s : string) : option (captures * string) :=
  match rx r accept s [] with
  | Some m => Some m
  | None =>
      match s with
      | String _ s' => exec r s'
      | EmptyString => None
      end
  end.

End Regex.
Export Regex.

(* ===================================================================== *)
(** * Plist helpers *)
(* ===================================================================== *)

(** A value given to [toPlist]. *)
Unset Elimination Schemes.
Inductive jsval :=
| JUndefined
| JNull
| JBool (b : bool)
| JNum (n : number)
| JStr (s : string)
| JArr (l : list jsval)
| JObj (l : list (string * jsval)).
Set Elimination Schemes.

(** A leaf produced by [parsePlist]. *)
Inductive scalar :=
| SStr (s : string)
| SNum (n : number)
| SBool (b : bool).

Definition jsval_of_scalar (v : scalar) : jsval :=
  match v with
  | SStr s => JStr s
  | SNum n => JNum n
  | SBool b => JBool b
  end.

Definition anyChar : ascii -> bool := fun _ => true.
Definition notLt : ascii -> bool := fun c => negb (Ascii.eqb c "<"%char).
Definition notGt : ascii -> bool := fun c => negb (Ascii.eqb c ">"%char).

(** The expression matched against the whole document: [<dict>], the
    shortest text (group 1) and [</dict>]. *)
Definition dictRegex : regex :=
  Cat (Lit "<dict>") (Cat (Grp 1 (Rep false 0 anyChar)) (Lit "</dict>")).

(** The first alternative of group 2 of [keyRegex]: an opening tag, a
    text without [<] (group 3) and a closing tag. *)
Definition elementRegex : regex :=
  Cat (Lit "<") (Cat (Rep true 1 notGt) (Cat (Lit ">")
    (Cat (Grp 3 (Rep true 0 notLt))
    (Cat (Lit "</") (Cat (Rep true 1 notGt) (Lit ">")))))).

(** The second alternative: [<true/>] or [<false/>] (group 4 is [true]
    or [false]). *)
Definition emptyElementRegex : regex :=
  Cat (Lit "<") (Cat (Grp 4 (Alt (Lit "true") (Lit "false"))) (Lit "/>")).

(** The global expression [keyRegex]: a [<key>] element (group 1: one or
    more characters other than [<]), optional white space, then group 2. *)
Definition keyRegex : regex :=
  Cat (Lit "<key>") (Cat (Grp 1 (Rep true 1 notLt)) (Cat (Lit "</key>")
    (Cat (Rep true 0 isWhiteSpace)
       (Grp 2 (Alt elementRegex emptyElementRegex))))).

(** The assignment [result[key] = value] of a boolean, a number or a
    string to the object literal [result].  The key [__proto__] names the
    accessor inherited from [Object.prototype], whose setter does nothing
    with a value that is not an object: no property is made. *)
Definition assign (key : string) (value : scalar)
    (result : gmap string scalar) : gmap string scalar :=
  if decide (key = "__proto__") then result else <[key := value]> result.

(** One iteration of the [while] loop of [parsePlist]. *)
Definition storeMatch (cs : captures) (result : gmap string scalar)
    : gmap string scalar :=
  match group 1 cs with
  | None => result
  | Some key =>
      match group 4 cs with
      | Some (String _ _ as m4) =>
          assign key (SBool (String.eqb m4 "true")) result
      | _ =>
          match group 3 cs with
          | Some value =>
              assign key (match Number value with
                          | None => SStr value
                          | Some num => SNum num
                          end) result
          | None => result
          end
      end
  end.

Fixpoint parseLoop (fuel : nat) (content : string)
    (result : gmap string scalar) : gmap string scalar :=
  match fuel with
  | O => result
  | S fuel' =>
      match exec keyRegex content with
      | None => result
      | Some (cs, rest) => parseLoop fuel' rest (storeMatch cs result)
      end
  end.

Definition parsePlist (xml : string) : gmap string scalar :=
  match exec dictRegex xml with
  | None => ∅
  | Some (cs, _) =>
      match group 1 cs with
      | None => ∅
      | Some content => parseLoop (S (String.length content)) content ∅
      end
  end.

Definition escape (s : string) : string :=
  Str.replaceAll ">" "&gt;"
    (Str.replaceAll "<" "&lt;" (Str.replaceAll "&" "&amp;" s)).

Fixpoint convertValue (value : jsval) : string :=
  match value with
  | JUndefined | JNull => "<string></string>"
  | JBool b => "<" +:+ (if b then "true" else "false") +:+ "/>"
  | JNum n =>
      if isInteger n then "<integer>" +:+ toString n +:+ "</integer>"
      else "<real>" +:+ toString n +:+ "</real>"
  | JStr s => "<string>" +:+ escape s +:+ "</string>"
  | JArr l => "<array>" +:+ Str.concat (map convertValue l) +:+ "</array>"
  | JObj l =>
      "<dict>" +:+
      Str.concat (map (fun kv => match kv with
                                 | (k, v) =>
                                     "<key>" +:+ k +:+ "</key>" +:+ convertValue v
                                 end) l)
      +:+ "</dict>"
  end.

Definition plistHeader : string :=
  "<?xml version=" +:+ Str.dquote +:+ "1.0" +:+ Str.dquote +:+
  " encoding=" +:+ Str.dquote +:+ "UTF-8" +:+ Str.dquote +:+ "?>" +:+
  Str.newline +:+
  "<!DOCTYPE plist PUBLIC " +:+ Str.dquote +:+
  "-//Apple//DTD PLIST 1.0//EN" +:+ Str.dquote +:+ " " +:+ Str.dquote +:+
  "http://www.apple.com/DTDs/PropertyList-1.0.dtd" +:+ Str.dquote +:+ ">" +:+
  Str.newline +:+
  "<plist version=" +:+ Str.dquote +:+ "1.0" +:+ Str.dquote +:+ ">" +:+
  Str.newline.

Definition plistFooter : string := Str.newline +:+ "</plist>".

Definition toPlist (obj : list (string * jsval)) : string :=
  plistHeader +:+ convertValue (JObj obj) +:+ plistFooter.

(* ===================================================================== *)
(** * Types *)
(* ===================================================================== *)

#[global] Instance number_eq_dec : EqDecision number.
Proof. solve_decision. Defined.

#[global] Instance number_countable : Countable number.
Proof.
  refine (inj_countable'
    (fun n => match n with
              | NInt z => inl z
              | NFrac m e => inr (inl (m, e))
              | NInfinity b => inr (inr b)
              end)
    (fun x => match x with
              | inl z => NInt z
              | inr (inl (m, e)) => NFrac m e
              | inr (inr b) => NInfinity b
              end) _).
  intros []; reflexivity.
Defined.

#[global] Instance scalar_eq_dec : EqDecision scalar.
Proof. solve_decision. Defined.

#[global] Instance scalar_countable : Countable scalar.
Proof.
  refine (inj_countable'
    (fun v => match v with
              | SStr s => inl s
              | SNum n => inr (inl n)
              | SBool b => inr (inr b)
              end)
    (fun x => match x with
              | inl s => SStr s
              | inr (inl n) => SNum n
              | inr (inr b) => SBool b
              end) _).
  intros []; reflexivity.
Defined.

(** The result of reading a property of a decoded message: [None] is
    [undefined].  The keys of the two [Map]s are such values. *)
Abbreviation key := (option scalar).

(** A [Date]. *)
Definition time := Z.

Inductive EnrollmentStatus := Pending | Enrolled | Unenrolled.

Inductive CommandStatus := CPending | CSent | CAcknowledged | CCompleted | CFailed.

#[global] Instance EnrollmentStatus_eq_dec : EqDecision EnrollmentStatus.
Proof. solve_decision. Defined.

#[global] Instance CommandStatus_eq_dec : EqDecision CommandStatus.
Proof. solve_decision. Defined.

(** [interface MDMDevice].  The optional telemetry fields
    ([deviceCapacity], [availableCapacity], [batteryLevel], [wifiMac],
    [bluetoothMac]) are never written by the server and are left out. *)
Module MDMDevice.
Record t := mk {
  id : string;
  udid : key;
  serialNumber : scalar;
  deviceName : scalar;
  modelName : scalar;
  model : scalar;
  osVersion : scalar;
  buildVersion : scalar;
  productName : scalar;
  isSupervised : bool;
  enrollmentStatus : EnrollmentStatus;
  enrolledAt : option time;
  lastCheckIn : option time;
  pushToken : key;
  pushMagic : key
}.

Definition set_lastCheckIn (v : option time) (d : t) : t :=
  mk (id d) (udid d) (serialNumber d) (deviceName d) (modelName d)
     (model d) (osVersion d) (buildVersion d) (productName d)
     (isSupervised d) (enrollmentStatus d) (enrolledAt d) v
     (pushToken d) (pushMagic d).

Definition set_enrollmentStatus (v : EnrollmentStatus) (d : t) : t :=
  mk (id d) (udid d) (serialNumber d) (deviceName d) (modelName d)
     (model d) (osVersion d) (buildVersion d) (productName d)
     (isSupervised d) v (enrolledAt d) (lastCheckIn d)
     (pushToken d) (pushMagic d).

Definition set_enrolledAt (v : option time) (d : t) : t :=
  mk (id d) (udid d) (serialNumber d) (deviceName d) (modelName d)
     (model d) (osVersion d) (buildVersion d) (productName d)
     (isSupervised d) (enrollmentStatus d) v (lastCheckIn d)
     (pushToken d) (pushMagic d).

Definition set_pushToken (v : key) (d : t) : t :=
  mk (id d) (udid d) (serialNumber d) (deviceName d) (modelName d)
     (model d) (osVersion d) (buildVersion d) (productName d)
     (isSupervised d) (enrollmentStatus d) (enrolledAt d) (lastCheckIn d)
     v (pushMagic d).

Definition set_pushMagic (v : key) (d : t) : t :=
  mk (id d) (udid d) (serialNumber d) (deviceName d) (modelName d)
     (model d) (osVersion d) (buildVersion d) (productName d)
     (isSupervised d) (enrollmentStatus d) (enrolledAt d) (lastCheckIn d)
     (pushToken d) v.
End MDMDevice.

(** [interface MDMCommand]. *)
Module MDMCommand.
Record t := mk {
  id : string;
  deviceId : string;
  commandType : jsval;
  payload : jsval;
  status : CommandStatus;
  createdAt : time;
  sentAt : option time;
  completedAt : option time;
  response : option (gmap string scalar);
  errorMessage : option string
}.

Definition set_status (v : CommandStatus) (c : t) : t :=
  mk (id c) (deviceId c) (commandType c) (payload c) v (createdAt c)
     (sentAt c) (completedAt c) (response c) (errorMessage c).

Definition set_sentAt (v : option time) (c : t) : t :=
  mk (id c) (deviceId c) (commandType c) (payload c) (status c)
     (createdAt c) v (completedAt c) (response c) (errorMessage c).

Definition set_completedAt (v : option time) (c : t) : t :=
  mk (id c) (deviceId c) (commandType c) (payload c) (status c)
     (createdAt c) (sentAt c) v (response c) (errorMessage c).

Definition set_response (v : option (gmap string scalar)) (c : t) : t :=
  mk (id c) (deviceId c) (commandType c) (payload c) (status c)
     (createdAt c) (sentAt c) (completedAt c) v (errorMessage c).
End MDMCommand.

(* ===================================================================== *)
(** * In-memory storage *)
(* ===================================================================== *)

(** The two global maps [devices] and [commandQueue]. *)
Record state := mkState {
  devices : gmap key MDMDevice.t;
  commandQueue : gmap key (list MDMCommand.t)
}.

Definition initial : state := mkState ∅ ∅.

(** What a handler sends back. *)
Inductive body :=
| NoBody
| Xml (s : string)
| JsonCommand (c : MDMCommand.t)
| JsonError (e : string).

Record response := mkResponse { code : nat; content : body }.

Definition sendXml (s : string) : response := mkResponse 200 (Xml s).

(* ===================================================================== *)
(** * MDM check-in endpoint *)
(* ===================================================================== *)

(** Truthiness of a decoded leaf, for [x || '']. *)
Definition truthy (v : scalar) : bool :=
  match v with
  | SStr s => negb (Str.is_empty s)
  | SNum (NInt 0) => false
  | SNum _ => true
  | SBool b => b
  end.

Definition orEmpty (x : key) : scalar :=
  match x with
  | Some v => if truthy v then v else SStr ""
  | None => SStr ""
  end.

Definition handleAuthenticate (message : gmap string scalar) (uuid : string)
    (st : state) : state * response :=
  let device :=
    {| MDMDevice.id := uuid;
       MDMDevice.udid := message !! "UDID";
       MDMDevice.serialNumber := orEmpty (message !! "SerialNumber");
       MDMDevice.deviceName := orEmpty (message !! "DeviceName");
       MDMDevice.modelName := orEmpty (message !! "ModelName");
       MDMDevice.model := orEmpty (message !! "Model");
       MDMDevice.osVersion := orEmpty (message !! "OSVersion");
       MDMDevice.buildVersion := orEmpty (message !! "BuildVersion");
       MDMDevice.productName := orEmpty (message !! "ProductName");
       MDMDevice.isSupervised := false;
       MDMDevice.enrollmentStatus := Pending;
       MDMDevice.enrolledAt := None;
       MDMDevice.lastCheckIn := None;
       MDMDevice.pushToken := None;
       MDMDevice.pushMagic := None |} in
  (mkState (<[message !! "UDID" := device]> (devices st)) (commandQueue st),
   sendXml (toPlist [])).

Definition handleTokenUpdate (message : gmap string scalar) (now : time)
    (st : state) : state * response :=
  match devices st !! (message !! "UDID") with
  | Some device =>
      let device :=
        MDMDevice.set_lastCheckIn (Some now)
          (MDMDevice.set_enrolledAt (Some now)
            (MDMDevice.set_enrollmentStatus Enrolled
              (MDMDevice.set_pushMagic (message !! "PushMagic")
                (MDMDevice.set_pushToken (message !! "Token") device)))) in
      (mkState (<[message !! "UDID" := device]> (devices st))
         (commandQueue st),
       sendXml (toPlist []))
  | None => (st, sendXml (toPlist []))
  end.

Definition handleCheckOut (message : gmap string scalar) (st : state)
    : state * response :=
  match devices st !! (message !! "UDID") with
  | Some device =>
      let device := MDMDevice.set_enrollmentStatus Unenrolled device in
      (mkState (<[message !! "UDID" := device]> (devices st))
         (commandQueue st),
       sendXml (toPlist []))
  | None => (st, sendXml (toPlist []))
  end.

(** [app.put('/checkin', ...)] *)
Definition checkin (body : string) (uuid : string) (now : time) (st : state)
    : state * response :=
  let message := parsePlist body in
  let messageType := message !! "MessageType" in
  if decide (messageType = Some (SStr "Authenticate")) then
    handleAuthenticate message uuid st
  else if decide (messageType = Some (SStr "TokenUpdate")) then
    handleTokenUpdate message now st
  else if decide (messageType = Some (SStr "CheckOut")) then
    handleCheckOut message st
  else (st, mkResponse 400 NoBody).

(* ===================================================================== *)
(** * MDM command endpoint *)
(* ===================================================================== *)

(** Whether a value that came in a JSON request body can be put in a
    template literal, as the log lines do.  An object that has a property
    [toString] of its own hides the method of that name, which is then
    not a function, and the conversion throws a [TypeError]; an array is
    joined, which converts its elements; every other value has a text. *)
Fixpoint stringifies (v : jsval) : bool :=
  match v with
  | JArr l => forallb stringifies l
  | JObj o => negb (existsb (fun kv => String.eqb (fst kv) "toString") o)
  | _ => true
  end.

(** How a call ends: it returns, or it throws. *)
Inductive completion := Returns | Throws.

Definition commandsOf (st : state) (udid : key) : list MDMCommand.t :=
  default [] (commandQueue st !! udid).

(** The command found, with its position in the device's array: the
    position stands for the reference the source mutates afterwards. *)
Definition getNextCommand (st : state) (udid : key)
    : option (nat * MDMCommand.t) :=
  list_find (fun cmd => MDMCommand.status cmd = CPending) (commandsOf st udid).

(** The array index that a property name stands for, if any: the name
    is the decimal text, without leading zeros, of an integer below
    [2^32 - 1]. *)
Definition arrayIndex (k : string) : option Z :=
  match nonEmptyNumeral 10 k with
  | Some n =>
      if String.eqb (digits n) k && (n <? 2 ^ 32 - 1) then Some n else None
  | None => None
  end.

(** The place of a new property [k] is before the property [k']: the
    properties of an object are listed with the array indices first, in
    ascending order, and the other names after them, in the order of
    their creation. *)
Definition precedes (k k' : string) : bool :=
  match arrayIndex k, arrayIndex k' with
  | Some n, Some n' => n <? n'
  | Some _, None => true
  | None, _ => false
  end.

(** Assignment [o[k] = v] on an object literal under construction: a
    property that exists keeps its place, a new one takes the place its
    name gives it. *)
Fixpoint objSet (k : string) (v : jsval) (o : list (string * jsval))
    : list (string * jsval) :=
  match o with
  | [] => [(k, v)]
  | (k', v') :: o' =>
      if String.eqb k k' then (k, v) :: o'
      else if precedes k k' then (k, v) :: o
      else (k', v') :: objSet k v o'
  end.

Fixpoint indexed {A} (i : nat) (l : list A) : list (string * A) :=
  match l with
  | [] => []
  | x :: l' => (digits (Z.of_nat i), x) :: indexed (S i) l'
  end.

(** The own enumerable properties copied by an object spread. *)
Definition ownEntries (v : jsval) : list (string * jsval) :=
  match v with
  | JObj l => l
  | JArr l => indexed 0 l
  | JStr s =>
      indexed 0 (map (fun c => JStr (String c "")) (list_ascii_of_string s))
  | _ => []
  end.

Definition spread (o : list (string * jsval)) (v : jsval)
    : list (string * jsval) :=
  fold_left (fun acc kv => objSet (fst kv) (snd kv) acc) (ownEntries v) o.

Definition buildCommandRequest (command : MDMCommand.t)
    : list (string * jsval) :=
  [("CommandUUID", JStr (MDMCommand.id command));
   ("Command",
    JObj (spread [("RequestType", MDMCommand.commandType command)]
            (MDMCommand.payload command)))].

(** The state the call leaves, and how it ends: the three assignments
    are made before the log line, which prints the type of the command
    and throws when the type has no text. *)
Definition processCommandResponse (udid : key)
    (response : gmap string scalar) (now : time) (st : state)
    : state * completion :=
  let commands := commandsOf st udid in
  match list_find (fun cmd => Some (SStr (MDMCommand.id cmd))
                              = response !! "CommandUUID") commands with
  | Some (i, command) =>
      let command :=
        MDMCommand.set_response (Some response)
          (MDMCommand.set_completedAt (Some now)
            (MDMCommand.set_status CCompleted command)) in
      (mkState (devices st)
         (<[udid := <[i := command]> commands]> (commandQueue st)),
       if stringifies (MDMCommand.commandType command)
       then Returns else Throws)
  | None => (st, Returns)
  end.

(** The code that follows [getNextCommand] in both branches of the
    command endpoint: mark the command found as sent and answer with the
    command request, or answer with an empty plist.  The branch of an
    idle device has a log line ([log]) that prints the type of the
    command after it has been marked; when this throws, the [catch] block
    of the endpoint answers with status 500. *)
Definition sendNext (log : bool) (udid : key) (now : time) (st : state)
    : state * response :=
  match getNextCommand st udid with
  | Some (i, nextCommand) =>
      let commandRequest := buildCommandRequest nextCommand in
      let nextCommand :=
        MDMCommand.set_sentAt (Some now)
          (MDMCommand.set_status CSent nextCommand) in
      (mkState (devices st)
         (<[udid := <[i := nextCommand]> (commandsOf st udid)]>
            (commandQueue st)),
       if log && negb (stringifies (MDMCommand.commandType nextCommand))
       then mkResponse 500 NoBody
       else sendXml (toPlist commandRequest))
  | None => (st, sendXml (toPlist []))
  end.

(** [app.put('/mdm', ...)] *)
Definition mdm (body : string) (now : time) (st : state)
    : state * response :=
  let response := parsePlist body in
  let udid := response !! "UDID" in
  match devices st !! udid with
  | None => (st, mkResponse 401 NoBody)
  | Some device =>
      let st :=
        mkState (<[udid := MDMDevice.set_lastCheckIn (Some now) device]>
                   (devices st))
                (commandQueue st) in
      if decide (response !! "Status" = Some (SStr "Idle")) then
        sendNext true udid now st
      else if decide (response !! "Status" = Some (SStr "Acknowledged")) then
        match processCommandResponse udid response now st with
        | (st, Returns) => sendNext false udid now st
        | (st, Throws) => (st, mkResponse 500 NoBody)
        end
      else (st, sendXml (toPlist []))
  end.

(* ===================================================================== *)
(** * REST API: command submission *)
(* ===================================================================== *)

Definition newCommand (uuid udid : string) (commandType payload : jsval)
    (now : time) : MDMCommand.t :=
  {| MDMCommand.id := Str.toUpperCase uuid;
     MDMCommand.deviceId := udid;
     MDMCommand.commandType := commandType;
     MDMCommand.payload := payload;
     MDMCommand.status := CPending;
     MDMCommand.createdAt := now;
     MDMCommand.sentAt := None;
     MDMCommand.completedAt := None;
     MDMCommand.response := None;
     MDMCommand.errorMessage := None |}.

(** [commands.push(command); commandQueue.set(udid, commands)] *)
Definition pushCommand (udid : string) (command : MDMCommand.t) (st : state)
    : state :=
  let commands := commandsOf st (Some (SStr udid)) in
  mkState (devices st)
    (<[Some (SStr udid) := commands ++ [command]]> (commandQueue st)).

(** [app.post('/api/devices/:udid/commands', ...)].  The log line after
    the push prints the command type; when this throws, the error handler
    of the application answers. *)
Definition postCommands (udid : string) (commandType payload : jsval)
    (uuid : string) (now : time) (st : state) : state * response :=
  match devices st !! Some (SStr udid) with
  | None => (st, mkResponse 404 (JsonError "Device not found"))
  | Some device =>
      let command := newCommand uuid udid commandType payload now in
      (pushCommand udid command st,
       if stringifies commandType
       then mkResponse 200 (JsonCommand command)
       else mkResponse 500 (JsonError "Internal server error"))
  end.

Definition jsTruthy (v : jsval) : bool :=
  match v with
  | JUndefined | JNull => false
  | JBool b => b
  | JNum (NInt 0) => false
  | JStr EmptyString => false
  | _ => true
  end.

Definition defaultQueries : jsval :=
  JArr (map JStr
    ["UDID"; "DeviceName"; "OSVersion"; "BuildVersion"; "ModelName"; "Model";
     "ProductName"; "SerialNumber"; "DeviceCapacity";
     "AvailableDeviceCapacity"; "BatteryLevel"; "WiFiMAC"; "BluetoothMAC";
     "IsSupervised"]).

(** [app.post('/api/devices/:udid/query', ...)] *)
Definition postQuery (udid : string) (queries : jsval) (uuid : string)
    (now : time) (st : state) : state * response :=
  let queries := if jsTruthy queries then queries else defaultQueries in
  let command :=
    newCommand uuid udid (JStr "DeviceInformation")
      (JObj [("Queries", queries)]) now in
  (pushCommand udid command st, mkResponse 200 (JsonCommand command)).

(** [app.post('/api/devices/:udid/lock', ...)] *)
Definition postLock (udid : string) (message phoneNumber : jsval)
    (uuid : string) (now : time) (st : state) : state * response :=
  let command :=
    newCommand uuid udid (JStr "DeviceLock")
      (JObj [("Message", message); ("PhoneNumber", phoneNumber)]) now in
  (pushCommand udid command st, mkResponse 200 (JsonCommand command)).

(* ===================================================================== *)
(** * The server as a transition system *)
(* ===================================================================== *)

(** The requests that change the two maps.  The remaining routes only read
    them, or serve the agent reports, which live in a map of their own. *)
Inductive request :=
| PutCheckin (body : string) (uuid : string) (now : time)
| PutMdm (body : string) (now : time)
| PostCommands (udid : string) (commandType payload : jsval)
    (uuid : string) (now : time)
| PostQuery (udid : string) (queries : jsval) (uuid : string) (now : time)
| PostLock (udid : string) (message phoneNumber : jsval)
    (uuid : string) (now : time).

Definition handle (r : request) (st : state) : state * response :=
  match r with
  | PutCheckin body uuid now => checkin body uuid now st
  | PutMdm body now => mdm body now st
  | PostCommands udid commandType payload uuid now =>
      postCommands udid commandType payload uuid now st
  | PostQuery udid queries uuid now => postQuery udid queries uuid now st
  | PostLock udid message phoneNumber uuid now =>
      postLock udid message phoneNumber uuid now st
  end.

Definition run (rs : list request) (st : state) : state :=
  fold_left (fun st r => fst (handle r st)) rs st.

Inductive reachable : state -> Prop :=
| reachable_initial : reachable initial
| reachable_step st r : reachable st -> reachable (fst (handle r st)).

(* ===================================================================== *)
(** * Sample messages and runs *)
(* ===================================================================== *)

Module Sample.

Definition A1 : key := Some (SStr "A1").

Definition authenticate : string :=
  "<dict><key>MessageType</key><string>Authenticate</string>" +:+
  "<key>UDID</key><string>A1</string>" +:+
  "<key>DeviceName</key><string>Phone</string></dict>".

Definition tokenUpdate : string :=
  "<dict><key>MessageType</key><string>TokenUpdate</string>" +:+
  "<key>UDID</key><string>A1</string>" +:+
  "<key>Token</key><string>tok123</string>" +:+
  "<key>PushMagic</key><string>magic</string></dict>".

Definition idle : string :=
  "<dict><key>Status</key><string>Idle</string>" +:+
  "<key>UDID</key><string>A1</string></dict>".

(** A status report that references a command. *)
Definition report (status commandUUID : string) : string :=
  "<dict><key>Status</key><string>" +:+ status +:+ "</string>" +:+
  "<key>UDID</key><string>A1</string>" +:+
  "<key>CommandUUID</key><string>" +:+ commandUUID +:+ "</string></dict>".

Definition uuid0 : string := "0b7ffa6e-58c5-4d1c-8a0e-6f1f3c2a9d10".
Definition uuid1 : string := "3f2504e0-4f89-41d3-9a0c-0305e82c3301".
Definition uuid2 : string := "9c5b94b1-35ad-49bb-b118-8e8fc24abf80".
Definition id1 : string := "3F2504E0-4F89-41D3-9A0C-0305E82C3301".
Definition id2 : string := "9C5B94B1-35AD-49BB-B118-8E8FC24ABF80".

(** Authenticate and enroll A1. *)
Definition enroll : list request :=
  [PutCheckin authenticate uuid0 1; PutCheckin tokenUpdate uuid0 2].

(** Two commands are queued for A1. *)
Definition enqueueTwo : list request :=
  [PostCommands "A1" (JStr "Cmd1") JUndefined uuid1 3;
   PostCommands "A1" (JStr "Cmd2") JUndefined uuid2 4].

Definition enrolled : state := run enroll initial.
Definition queued : state := run enqueueTwo enrolled.
Definition polledOnce : state := run [PutMdm idle 5] queued.
Definition polledTwice : state := run [PutMdm idle 6] polledOnce.

End Sample.


(** What resolving does to the command it finds. *)
Definition completed (response : gmap string scalar) (now : time)
    (command : MDMCommand.t) : MDMCommand.t :=
  MDMCommand.set_response (Some response)
    (MDMCommand.set_completedAt (Some now)
      (MDMCommand.set_status CCompleted command)).

(** A check-in or a poll from the device refreshes [lastCheckIn] only. *)
Definition touch (udid : key) (device : MDMDevice.t) (now : time)
    (st : state) : state :=
  mkState (<[udid := MDMDevice.set_lastCheckIn (Some now) device]> (devices st))
    (commandQueue st).

(** The enrollment of the device of this record has completed. *)
Definition enrollmentCompleted (d : MDMDevice.t) : Prop :=
  MDMDevice.enrollmentStatus d <> Pending /\ MDMDevice.enrolledAt d <> None.

(* ===================================================================== *)
(** * The wire format of a dictionary of leaves *)
(* ===================================================================== *)

(** The position [s] is one where a repetition of [cls] stops. *)
Definition stops (cls : ascii -> bool) (s : string) : Prop :=
  match s with
  | EmptyString => True
  | String c _ => cls c = false
  end.

(** An element [<tag>text</tag>]. *)
Definition element (tag text : string) : string :=
  "<" +:+ tag +:+ ">" +:+ text +:+ "</" +:+ tag +:+ ">".

Definition emptyElement (b : bool) : string :=
  "<" +:+ (if b then "true" else "false") +:+ "/>".

(** What may follow an entry inside the dictionary: nothing or a key. *)
Definition entryOrEnd (rest : string) : Prop :=
  rest = "" \/ exists r, rest = "<key>" +:+ r.

(** The value of an entry on the wire: an element with a tag and a text,
    or an empty element [<true/>] or [<false/>]. *)
Inductive wireValue :=
| WElement (tag text : string)
| WEmpty (b : bool).

Definition wireText (w : wireValue) : string :=
  match w with
  | WElement tag text => element tag text
  | WEmpty b => emptyElement b
  end.

(** What the loop of [parsePlist] stores for a text. *)
Definition decodeText (text : string) : scalar :=
  match Number text with
  | None => SStr text
  | Some num => SNum num
  end.

Definition wireDecode (w : wireValue) : scalar :=
  match w with
  | WElement _ text => decodeText text
  | WEmpty b => SBool b
  end.

Definition keyOk (k : string) : Prop :=
  k <> "" /\ Str.all notLt k = true.

Definition wireOk (w : wireValue) : Prop :=
  match w with
  | WElement tag text =>
      (tag = "string" \/ tag = "integer" \/ tag = "real") /\
      Str.all notLt text = true
  | WEmpty _ => True
  end.

Definition entryText (kw : string * wireValue) : string :=
  "<key>" +:+ fst kw +:+ "</key>" +:+ wireText (snd kw).

Definition entriesText (l : list (string * wireValue)) : string :=
  Str.concat (map entryText l).

Definition store (result : gmap string scalar) (kw : string * wireValue)
    : gmap string scalar :=
  assign (fst kw) (wireDecode (snd kw)) result.

Definition entryCaptures (kw : string * wireValue) : captures :=
  match snd kw with
  | WElement tag text =>
      [(2%nat, element tag text); (3%nat, text); (1%nat, fst kw)]
  | WEmpty b =>
      [(2%nat, emptyElement b); (4%nat, if b then "true" else "false");
       (1%nat, fst kw)]
  end.

(** Every [<] of [s] is followed in [s] by two characters that are not
    the beginning [/d] of the closing tag of the dictionary. *)
Fixpoint closeFree (s : string) : bool :=
  match s with
  | EmptyString => true
  | String c s' =>
      (if Ascii.eqb c "<" then
         match s' with
         | String x (String y _) => negb (Ascii.eqb x "/" && Ascii.eqb y "d")
         | _ => false
         end
       else true) && closeFree s'
  end.

Definition wireOf (v : scalar) : wireValue :=
  match v with
  | SStr s => WElement "string" (escape s)
  | SNum n => WElement (if isInteger n then "integer" else "real") (toString n)
  | SBool b => WEmpty b
  end.

Definition encodeObject (m : list (string * scalar))
    : list (string * jsval) :=
  map (fun kv => (fst kv, jsval_of_scalar (snd kv))) m.

Definition wireEntries (m : list (string * scalar))
    : list (string * wireValue) :=
  map (fun kv => (fst kv, wireOf (snd kv))) m.


(** A key the codec can carry: not empty and without [<]. *)
Definition wireKey (k : string) : bool :=
  negb (Str.is_empty k) && Str.all notLt k.


Definition notSpace (c : ascii) : bool := negb (isWhiteSpace c).

(** The part of a literal in exponent notation after its first digit. *)
Definition fraction (r : string) : string :=
  match r with
  | EmptyString => EmptyString
  | String _ _ => "." +:+ r
  end.

(** [after n s' s]: the position [s'] is at least [n] characters after
    the position [s]. *)
Definition after (n : nat) (s' s : string) : Prop :=
  (String.length s' + n <= String.length s)%nat.

(** Push credentials are carried only by devices that have enrolled. *)
Definition pushInvariant (st : state) : Prop :=
  forall k d, devices st !! k = Some d ->
    MDMDevice.pushToken d <> None \/ MDMDevice.pushMagic d <> None ->
    enrollmentCompleted d.

(* ===================================================================== *)
(** * Health check and the read-only REST routes *)
(* ===================================================================== *)

(** [Array.from(commandQueue.values()).flat()].  The source lists the
    queues in the order of their creation and the finite map in an order
    of its own; what is computed from the list here is a count, which
    does not depend on the order. *)
Definition allCommands (st : state) : list MDMCommand.t :=
  concat (snd <$> map_to_list (commandQueue st)).

(** The [pendingCommands] field of [app.get('/health', ...)]. *)
Definition pendingCommands (st : state) : nat :=
  length (filter (fun c => MDMCommand.status c = CPending) (allCommands st)).

(** The fields [devices] and [pendingCommands] of the health report. *)
Definition health (st : state) : nat * nat :=
  (size (devices st), pendingCommands st).

(** [app.get('/api/devices/:udid', ...)]: the record sent with status 200,
    or [None] for status 404. *)
Definition getDevice (udid : string) (st : state) : option MDMDevice.t :=
  devices st !! Some (SStr udid).

(** [app.get('/api/devices/:udid/commands', ...)] *)
Definition getCommands (udid : string) (st : state) : list MDMCommand.t :=
  default [] (commandQueue st !! Some (SStr udid)).

(* ===================================================================== *)
(** * Agent reporting API *)
(* ===================================================================== *)

(** A property of a stored report: a JSON value of the request, or the
    [Date] put in [lastReportedAt]. *)
Inductive reportValue :=
| RJson (v : jsval)
| RDate (t : time).

Definition storedReport := list (string * reportValue).

(** Equality of the keys of a [Map] (SameValueZero).  Arrays and objects
    are compared by reference, and the key of a report is an object of
    the request body, never met before. *)
Definition sameValueZero (a b : jsval) : bool :=
  match a, b with
  | JUndefined, JUndefined => true
  | JNull, JNull => true
  | JBool x, JBool y => Bool.eqb x y
  | JNum x, JNum y => bool_decide (x = y)
  | JStr x, JStr y => String.eqb x y
  | _, _ => false
  end.

(** The map [agentReports], in insertion order. *)
Definition agentStore := list (jsval * storedReport).

Fixpoint mapGet (k : jsval) (m : agentStore) : option storedReport :=
  match m with
  | [] => None
  | (k', v) :: m' => if sameValueZero k' k then Some v else mapGet k m'
  end.

Fixpoint mapSet (k : jsval) (v : storedReport) (m : agentStore)
    : agentStore :=
  match m with
  | [] => [(k, v)]
  | (k', v') :: m' =>
      if sameValueZero k' k then (k', v) :: m' else (k', v') :: mapSet k v m'
  end.

(** The property [k] of the JSON object of a request, if it has one. *)
Fixpoint getOwn (k : string) (o : list (string * jsval)) : option jsval :=
  match o with
  | [] => None
  | (k', v) :: o' => if String.eqb k' k then Some v else getOwn k o'
  end.

(** Reading a property: [undefined] when the object has none. *)
Definition getProp (k : string) (o : list (string * jsval)) : jsval :=
  default JUndefined (getOwn k o).

Fixpoint setField (k : string) (v : reportValue) (o : storedReport)
    : storedReport :=
  match o with
  | [] => [(k, v)]
  | (k', v') :: o' =>
      if String.eqb k' k then (k', v) :: o' else (k', v') :: setField k v o'
  end.

(** The object literal made of the report's properties followed by
    [lastReportedAt]. *)
Definition withLastReportedAt (report : list (string * jsval)) (now : time)
    : storedReport :=
  setField "lastReportedAt" (RDate now)
    (map (fun kv => (fst kv, RJson (snd kv))) report).

(** What the agent routes answer. *)
Inductive agentBody :=
| AgentError (e : string)
| AgentReceived (reportId : jsval)
| AgentReport (r : storedReport)
| AgentReports (l : list storedReport).

Record agentResponse := mkAgentResponse { agentCode : nat; agentContent : agentBody }.

(** Reading a property of a stored report. *)
Fixpoint getField (k : string) (o : storedReport) : option reportValue :=
  match o with
  | [] => None
  | (k', v) :: o' => if String.eqb k' k then Some v else getField k o'
  end.

(** The values interpolated by the three [console.log] calls. *)
Definition logged (report : list (string * jsval)) : list jsval :=
  [getProp "deviceName" report; getProp "serialNumber" report;
   getProp "modelName" report; getProp "osName" report;
   getProp "osVersion" report;
   (if jsTruthy (getProp "ipAddress" report)
    then getProp "ipAddress" report else JStr "N/A");
   getProp "currentUser" report].

(** [app.post('/api/agent/report', ...)].  [report] lists the properties
    of the object that is the request body.  The [catch] block answers
    500 when a [console.log] argument throws, after the report has been
    stored. *)
Definition postAgentReport (report : list (string * jsval)) (now : time)
    (agentReports : agentStore) : agentStore * agentResponse :=
  if negb (jsTruthy (getProp "serialNumber" report))
     || negb (jsTruthy (getProp "hardwareUUID" report)) then
    (agentReports,
     mkAgentResponse 400
       (AgentError "Missing required fields: serialNumber or hardwareUUID"))
  else
    let agentReports :=
      mapSet (getProp "serialNumber" report) (withLastReportedAt report now)
        agentReports in
    if forallb stringifies (logged report) then
      (agentReports,
       mkAgentResponse 201 (AgentReceived (getProp "reportId" report)))
    else
      (agentReports, mkAgentResponse 500 (AgentError "Failed to process report")).

(** [app.get('/api/agent/reports', ...)] *)
Definition getAgentReports (agentReports : agentStore) : agentResponse :=
  mkAgentResponse 200 (AgentReports (snd <$> agentReports)).

(** [app.get('/api/agent/reports/:serialNumber', ...)] *)
Definition getAgentReport (serialNumber : string) (agentReports : agentStore)
    : agentResponse :=
  match mapGet (JStr serialNumber) agentReports with
  | Some report => mkAgentResponse 200 (AgentReport report)
  | None => mkAgentResponse 404 (AgentError "Report not found")
  end.

(* ===================================================================== *)
(** * Further notions of the codec *)
(* ===================================================================== *)

(** [l] occurs in [s]. *)
Fixpoint occurs (l s : string) : bool :=
  match Str.strip_prefix l s with
  | Some _ => true
  | None =>
      match s with
      | String _ s' => occurs l s'
      | EmptyString => false
      end
  end.

(** The position [s'] is the position [s] or a later one of the same
    text. *)
Definition suffixOf (s' s : string) : Prop := exists p, s = p +:+ s'.

(** What [escape] writes for one character. *)
Definition escapeChar (c : ascii) : string :=
  if Ascii.eqb c "&" then "&amp;"
  else if Ascii.eqb c "<" then "&lt;"
  else if Ascii.eqb c ">" then "&gt;"
  else String c "".

(** What decoding makes of an encoded leaf. *)
Definition decodeLeaf (v : scalar) : scalar :=
  match v with
  | SStr s => decodeText (escape s)
  | SNum n => decodeText (toString n)
  | SBool b => SBool b
  end.

(* ===================================================================== *)
(** * The life of a command *)
(* ===================================================================== *)

(** The moves of a command's status the server makes: none, from
    [pending] to [sent], and from any status to [completed]. *)
Definition forward (s s' : CommandStatus) : Prop :=
  s' = s \/ (s = CPending /\ s' = CSent) \/ s' = CCompleted.

(** [c'] is the command [c], later. *)
Definition sameCommand (c c' : MDMCommand.t) : Prop :=
  MDMCommand.id c' = MDMCommand.id c /\
  MDMCommand.deviceId c' = MDMCommand.deviceId c /\
  MDMCommand.commandType c' = MDMCommand.commandType c /\
  MDMCommand.payload c' = MDMCommand.payload c /\
  MDMCommand.createdAt c' = MDMCommand.createdAt c /\
  MDMCommand.errorMessage c' = MDMCommand.errorMessage c.

Definition commandStep (c c' : MDMCommand.t) : Prop :=
  sameCommand c c' /\ forward (MDMCommand.status c) (MDMCommand.status c').

(** The queue [q'] has, position by position, the commands of [q], later,
    and possibly more commands after them. *)
Definition queueStep (q q' : list MDMCommand.t) : Prop :=
  forall i c, q !! i = Some c -> exists c', q' !! i = Some c' /\ commandStep c c'.

(** What delivering does to the command it found. *)
Definition sent (now : time) (command : MDMCommand.t) : MDMCommand.t :=
  MDMCommand.set_sentAt (Some now) (MDMCommand.set_status CSent command).

(** The fields of a command agree with its status. *)
Definition commandOk (c : MDMCommand.t) : Prop :=
  MDMCommand.errorMessage c = None /\
  match MDMCommand.status c with
  | CPending =>
      MDMCommand.sentAt c = None /\ MDMCommand.completedAt c = None /\
      MDMCommand.response c = None
  | CSent =>
      MDMCommand.sentAt c <> None /\ MDMCommand.completedAt c = None /\
      MDMCommand.response c = None
  | CCompleted =>
      MDMCommand.completedAt c <> None /\ MDMCommand.response c <> None
  | CAcknowledged | CFailed => False
  end.

(** Every queue belongs to a string identifier, the one its commands
    carry. *)
Definition queuesOwned (st : state) : Prop :=
  forall k q, commandQueue st !! k = Some q ->
    exists udid, k = Some (SStr udid) /\
      Forall (fun c => MDMCommand.deviceId c = udid) q.

(** Every record is registered under the identifier it carries. *)
Definition recordsKeyed (st : state) : Prop :=
  forall k d, devices st !! k = Some d -> MDMDevice.udid d = k.

(** Every command of every queue has fields that agree with its status. *)
Definition queuesOk (st : state) : Prop :=
  forall k, Forall commandOk (commandsOf st k).

(** Counting the elements of a list, and of the lists of a map, that
    satisfy [P]. *)
Definition countIf {A : Type} (P : A -> Prop) `{forall x, Decision (P x)}
    (l : list A) : nat :=
  length (filter P l).

Definition countAll {A K : Type} `{Countable K} (P : A -> Prop)
    `{forall x, Decision (P x)} (m : gmap K (list A)) : nat :=
  countIf P (concat (snd <$> map_to_list m)).

Abbreviation isPending :=
  (fun c : MDMCommand.t => MDMCommand.status c = CPending).

(* ===================================================================== *)
(** * Properties of the codec *)
(* ===================================================================== *)

(** * Strings *)

Lemma append_nil (b : string) : "" +:+ b = b.
Proof. reflexivity. Qed.

Lemma append_cons (x : ascii) (a b : string) :
  String x a +:+ b = String x (a +:+ b).
Proof. reflexivity. Qed.

Lemma append_assoc (a b c : string) : (a +:+ b) +:+ c = a +:+ (b +:+ c).
Proof.
  induction a as [|x a IH]; [reflexivity|].
  now rewrite !append_cons, IH.
Qed.

Lemma append_empty_r (a : string) : a +:+ "" = a.
Proof.
  induction a as [|x a IH]; [reflexivity|].
  now rewrite append_cons, IH.
Qed.

Lemma length_append (a b : string) :
  String.length (a +:+ b) = (String.length a + String.length b)%nat.
Proof.
  induction a as [|x a IH]; [reflexivity|].
  rewrite append_cons. simpl. now rewrite IH.
Qed.

Lemma strip_prefix_append (l s : string) : Str.strip_prefix l (l +:+ s) = Some s.
Proof.
  induction l as [|x l IH]; [reflexivity|].
  rewrite append_cons. simpl. now rewrite Ascii.eqb_refl.
Qed.

Lemma take_append (a b : string) : Str.take (String.length a) (a +:+ b) = a.
Proof.
  induction a as [|x a IH]; [now destruct b|].
  rewrite append_cons. simpl. now rewrite IH.
Qed.

Lemma consumed_append (a b : string) : consumed (a +:+ b) b = a.
Proof.
  unfold consumed. rewrite length_append.
  replace (String.length a + String.length b - String.length b)%nat
    with (String.length a) by lia.
  apply take_append.
Qed.

(** * The matcher *)

Section MatcherFacts.
Context {A : Type}.
Implicit Types (k : @cont A) (cs : captures).

Lemma rx_Lit k (l s : string) cs :
  rx (Lit l) k (l +:+ s) cs = k s cs.
Proof. simpl. now rewrite strip_prefix_append. Qed.

Lemma rx_Lit_fail k (l s : string) cs :
  Str.strip_prefix l s = None -> rx (Lit l) k s cs = None.
Proof. intros H. simpl. now rewrite H. Qed.

Lemma rx_Cat (r1 r2 : regex) k (s : string) cs :
  rx (Cat r1 r2) k s cs = rx r1 (rx r2 k) s cs.
Proof. reflexivity. Qed.

Lemma rx_Grp (i : nat) (r : regex) k (s : string) cs :
  rx (Grp i r) k s cs
  = rx r (fun s' cs' => k s' ((i, consumed s s') :: cs')) s cs.
Proof. reflexivity. Qed.

Lemma rx_Alt (r1 r2 : regex) k (s : string) cs :
  rx (Alt r1 r2) k s cs
  = match rx r1 k s cs with Some a => Some a | None => rx r2 k s cs end.
Proof. reflexivity. Qed.

Lemma rx_Alt_l (r1 r2 : regex) k (s : string) cs a :
  rx r1 k s cs = Some a -> rx (Alt r1 r2) k s cs = Some a.
Proof. intros H. simpl. now rewrite H. Qed.

Lemma rx_Alt_r (r1 r2 : regex) k (s : string) cs :
  rx r1 k s cs = None -> rx (Alt r1 r2) k s cs = rx r2 k s cs.
Proof. intros H. simpl. now rewrite H. Qed.

Lemma repGreedy_all (cls : ascii -> bool) (min : nat) k (v s : string) cs a :
  Str.all cls v = true -> (min <= String.length v)%nat -> stops cls s ->
  k s cs = Some a ->
  repGreedy cls min k (v +:+ s) cs = Some a.
Proof.
  intros Hv Hmin Hs Hk. revert min Hmin.
  induction v as [|c v IH]; intros min Hmin; simpl in *.
  - assert (min = 0%nat) as -> by lia. rewrite ?append_nil.
    destruct s as [|c s]; simpl; [exact Hk|].
    simpl in Hs. now rewrite Hs.
  - apply andb_true_iff in Hv as [Hc Hv]. rewrite ?append_cons. simpl.
    rewrite Hc. rewrite (IH Hv (Nat.pred min)) by lia. reflexivity.
Qed.

Lemma repLazy_here (cls : ascii -> bool) k (s : string) cs a :
  k s cs = Some a -> repLazy cls 0 k s cs = Some a.
Proof. intros Hk. destruct s; simpl; now rewrite Hk. Qed.

Lemma repLazy_skip (cls : ascii -> bool) k (v s : string) cs :
  Str.all cls v = true ->
  (forall a b, v = a +:+ b -> b <> "" -> k (b +:+ s) cs = None) ->
  repLazy cls 0 k (v +:+ s) cs = repLazy cls 0 k s cs.
Proof.
  induction v as [|c v IH]; intros Hv Hfail; simpl in *; [reflexivity|].
  apply andb_true_iff in Hv as [Hc Hv].
  pose proof (Hfail "" (String c v) eq_refl) as H0.
  rewrite ?append_nil, ?append_cons in *. simpl. rewrite H0 by discriminate.
  rewrite Hc. apply IH; [exact Hv|].
  intros a b -> Hb. apply (Hfail (String c a) b); [reflexivity|exact Hb].
Qed.
End MatcherFacts.

Lemma exec_here (r : regex) (s : string) m :
  rx r accept s [] = Some m -> exec r s = Some m.
Proof. intros H. destruct s; simpl; now rewrite H. Qed.

Lemma exec_skip (r : regex) (p s : string) :
  (forall a b, p = a +:+ b -> b <> "" -> rx r accept (b +:+ s) [] = None) ->
  exec r (p +:+ s) = exec r s.
Proof.
  induction p as [|c p IH]; intros Hfail; [reflexivity|].
  pose proof (Hfail "" (String c p) eq_refl) as H0.
  rewrite ?append_nil, ?append_cons in *. simpl. rewrite H0 by discriminate.
  apply IH. intros a b -> Hb. apply (Hfail (String c a) b); [reflexivity|exact Hb].
Qed.

(** * One entry of a dictionary *)

Lemma keyRegex_eq :
  keyRegex =
  Cat (Lit "<key>") (Cat (Grp 1 (Rep true 1 notLt)) (Cat (Lit "</key>")
    (Cat (Rep true 0 isWhiteSpace)
       (Grp 2 (Alt elementRegex emptyElementRegex))))).
Proof. reflexivity. Qed.

Lemma nonempty_length (s : string) : s <> "" -> (1 <= String.length s)%nat.
Proof. destruct s; [congruence|simpl; lia]. Qed.

Section EntryFacts.
Context {A : Type}.
Implicit Types (k : @cont A) (cs : captures).

Lemma rx_element k (tag text rest : string) cs a :
  tag <> "" -> Str.all notGt tag = true -> Str.all notLt text = true ->
  k rest ((3%nat, text) :: cs) = Some a ->
  rx elementRegex k (element tag text +:+ rest) cs = Some a.
Proof.
  intros Htag Hgt Hlt Hk. unfold elementRegex, element.
  rewrite !append_assoc.
  rewrite rx_Cat, rx_Lit, rx_Cat.
  apply repGreedy_all; [exact Hgt|now apply nonempty_length|reflexivity|].
  rewrite rx_Cat, rx_Lit, rx_Cat, rx_Grp.
  apply repGreedy_all; [exact Hlt|simpl; lia|reflexivity|].
  rewrite consumed_append.
  rewrite rx_Cat, rx_Lit, rx_Cat.
  apply repGreedy_all; [exact Hgt|now apply nonempty_length|reflexivity|].
  rewrite rx_Lit. exact Hk.
Qed.

Lemma rx_element_empty k (b : bool) (rest : string) cs :
  entryOrEnd rest ->
  rx elementRegex k (emptyElement b +:+ rest) cs = None.
Proof.
  intros [->|[r ->]]; destruct b; reflexivity.
Qed.

Lemma rx_emptyElement k (b : bool) (rest : string) cs :
  rx emptyElementRegex k (emptyElement b +:+ rest) cs
  = k rest ((4%nat, if b then "true" else "false") :: cs).
Proof.
  unfold emptyElementRegex, emptyElement. rewrite !append_assoc.
  rewrite rx_Cat, rx_Lit, rx_Cat, rx_Grp.
  destruct b.
  - rewrite rx_Alt, rx_Lit, rx_Lit, consumed_append.
    now destruct (k rest _).
  - rewrite rx_Alt_r by reflexivity.
    rewrite rx_Lit, rx_Lit. now rewrite consumed_append.
Qed.
End EntryFacts.

(** * The entries of a dictionary *)

Lemma rx_keyRegex_entry (kw : string * wireValue) (rest : string) :
  keyOk (fst kw) -> wireOk (snd kw) -> entryOrEnd rest ->
  rx keyRegex accept (entryText kw +:+ rest) []
  = Some (entryCaptures kw, rest).
Proof.
  destruct kw as [k w]. cbn [fst snd]. intros [Hk Hlt] Hw Hrest.
  rewrite keyRegex_eq. unfold entryText, entryCaptures. cbn [fst snd].
  rewrite !append_assoc.
  rewrite rx_Cat, rx_Lit, rx_Cat, rx_Grp.
  apply repGreedy_all; [exact Hlt|now apply nonempty_length|reflexivity|].
  rewrite consumed_append.
  rewrite rx_Cat, rx_Lit, rx_Cat.
  apply (repGreedy_all _ _ _ "");
    [reflexivity|simpl; lia|now destruct w as [tag text|[]]|].
  rewrite rx_Grp.
  destruct w as [tag text|b]; cbn [wireText].
  - destruct Hw as (Htag & Htext).
    apply rx_Alt_l.
    apply rx_element;
      [destruct Htag as [->|[->| ->]]; discriminate
      |destruct Htag as [->|[->| ->]]; reflexivity
      |exact Htext|].
    now rewrite consumed_append.
  - rewrite rx_Alt_r by now apply rx_element_empty.
    rewrite rx_emptyElement. now rewrite consumed_append.
Qed.

Lemma storeMatch_entry (kw : string * wireValue)
    (result : gmap string scalar) :
  storeMatch (entryCaptures kw) result = store result kw.
Proof.
  destruct kw as [k [tag text|[]]]; reflexivity.
Qed.

Lemma entriesText_cons (kw : string * wireValue)
    (l : list (string * wireValue)) :
  entriesText (kw :: l) = entryText kw +:+ entriesText l.
Proof. reflexivity. Qed.

Lemma entryOrEnd_entries (l : list (string * wireValue)) :
  entryOrEnd (entriesText l).
Proof.
  destruct l as [|kw l]; [now left|right].
  rewrite entriesText_cons. unfold entryText. rewrite !append_assoc.
  eexists. reflexivity.
Qed.

Lemma parseLoop_S (fuel : nat) (content : string)
    (result : gmap string scalar) :
  parseLoop (S fuel) content result =
  match exec keyRegex content with
  | None => result
  | Some (cs, rest) => parseLoop fuel rest (storeMatch cs result)
  end.
Proof. reflexivity. Qed.

Lemma parseLoop_entries (l : list (string * wireValue)) :
  Forall (fun kw => keyOk (fst kw) /\ wireOk (snd kw)) l ->
  forall (fuel : nat) (result : gmap string scalar),
    (length l < fuel)%nat ->
    parseLoop fuel (entriesText l) result = foldl store result l.
Proof.
  induction 1 as [|kw l [Hk Hw] Hl IH]; intros fuel result Hfuel.
  - destruct fuel; [simpl in Hfuel; lia|]. reflexivity.
  - destruct fuel as [|fuel]; [simpl in Hfuel; lia|].
    simpl in Hfuel. rewrite entriesText_cons, parseLoop_S.
    rewrite (exec_here _ _ (entryCaptures kw, entriesText l))
      by (apply rx_keyRegex_entry; auto using entryOrEnd_entries).
    rewrite storeMatch_entry. simpl foldl. apply IH. lia.
Qed.

(** * Matches consume their input *)

Lemma strip_prefix_length (l s s' : string) :
  Str.strip_prefix l s = Some s' ->
  String.length s = (String.length l + String.length s')%nat.
Proof.
  revert s; induction l as [|a l IH]; intros s H.
  - injection H as ->. reflexivity.
  - destruct s as [|b s]; [discriminate|]. simpl in H.
    destruct (Ascii.eqb b a); [|discriminate].
    simpl. now rewrite (IH s H).
Qed.

Section Consumption.
Context {A : Type}.
Implicit Types (k : @cont A) (cs : captures).

Lemma repGreedy_after (cls : ascii -> bool) (min : nat) k (s : string) cs a :
  repGreedy cls min k s cs = Some a ->
  exists s' cs', after 0 s' s /\ k s' cs' = Some a.
Proof.
  revert min; induction s as [|c s IH]; intros min H.
  - simpl in H. destruct min; [|discriminate].
    exists "", cs. split; [unfold after; lia|exact H].
  - simpl in H.
    assert (Hstop : match min with O => k (String c s) cs | S _ => None end
                    = Some a ->
                    exists s' cs', after 0 s' (String c s) /\ k s' cs' = Some a).
    { destruct min; [|discriminate]. intros Hk.
      exists (String c s), cs. split; [unfold after; lia|exact Hk]. }
    destruct (cls c); [|now apply Hstop].
    destruct (repGreedy cls (Nat.pred min) k s cs) as [a'|] eqn:Hrec;
      [|now apply Hstop].
    injection H as ->. destruct (IH _ Hrec) as (s' & cs' & Hs' & Hk).
    exists s', cs'. split; [unfold after in *; simpl; lia|exact Hk].
Qed.

Lemma repLazy_after (cls : ascii -> bool) (min : nat) k (s : string) cs a :
  repLazy cls min k s cs = Some a ->
  exists s' cs', after 0 s' s /\ k s' cs' = Some a.
Proof.
  revert min; induction s as [|c s IH]; intros min H.
  - simpl in H. destruct min; [|discriminate].
    destruct (k "" cs) eqn:Hk; [|discriminate]. injection H as ->.
    exists "", cs. split; [unfold after; lia|exact Hk].
  - simpl in H.
    assert (Hmore : (if cls c then repLazy cls (Nat.pred min) k s cs else None)
                    = Some a ->
                    exists s' cs', after 0 s' (String c s) /\ k s' cs' = Some a).
    { destruct (cls c); [|discriminate]. intros Hrec.
      destruct (IH _ Hrec) as (s' & cs' & Hs' & Hk).
      exists s', cs'. split; [unfold after in *; simpl; lia|exact Hk]. }
    destruct min; [|now apply Hmore].
    destruct (k (String c s) cs) eqn:Hk; [|now apply Hmore].
    injection H as ->.
    exists (String c s), cs. split; [unfold after; lia|exact Hk].
Qed.

End Consumption.

(** A successful match continues at a later position. *)
Lemma rx_after (r : regex) :
  forall {A : Type} (k : @cont A) (s : string) (cs : captures) (a : A),
    rx r k s cs = Some a ->
    exists s' cs', after 0 s' s /\ k s' cs' = Some a.
Proof.
  induction r as [l|greedy min cls|r1 IH1 r2 IH2|r1 IH1 r2 IH2|i r IH];
    intros A k s cs a H.
  - simpl in H. destruct (Str.strip_prefix l s) as [s'|] eqn:Hl; [|discriminate].
    exists s', cs. split; [|exact H].
    unfold after. rewrite (strip_prefix_length _ _ _ Hl). lia.
  - simpl in H. destruct greedy;
      [now apply repGreedy_after in H|now apply repLazy_after in H].
  - simpl in H. destruct (IH1 _ _ _ _ _ H) as (s1 & cs1 & Hs1 & H1).
    destruct (IH2 _ _ _ _ _ H1) as (s2 & cs2 & Hs2 & H2).
    exists s2, cs2. split; [unfold after in *; lia|exact H2].
  - simpl in H. destruct (rx r1 k s cs) as [a1|] eqn:H1.
    + injection H as ->. now apply IH1 in H1.
    + now apply IH2 in H.
  - simpl in H. destruct (IH _ _ _ _ _ H) as (s' & cs' & Hs' & Hk).
    eexists s', _. split; [exact Hs'|exact Hk].
Qed.

Lemma exec_cons (r : regex) (c : ascii) (s : string) :
  exec r (String c s) =
  match rx r accept (String c s) [] with
  | Some m => Some m
  | None => exec r s
  end.
Proof. reflexivity. Qed.

Lemma rx_key_prefix {A : Type} (r : regex) (k : @cont A) (s : string)
    (cs : captures) :
  rx (Cat (Lit "<key>") r) k s cs =
  match Str.strip_prefix "<key>" s with
  | Some s' => rx r k s' cs
  | None => None
  end.
Proof. reflexivity. Qed.

Lemma exec_keyRegex_after (s rest : string) (cs : captures) :
  exec keyRegex s = Some (cs, rest) -> after 5 rest s.
Proof.
  induction s as [|c s IH]; intros H.
  - discriminate.
  - rewrite exec_cons in H.
    destruct (rx keyRegex accept (String c s) []) as [m|] eqn:Hm.
    + injection H as ->. unfold keyRegex in Hm. rewrite rx_key_prefix in Hm.
      destruct (Str.strip_prefix "<key>" (String c s)) as [s1|] eqn:Hl;
        [|discriminate].
      apply rx_after in Hm as (s' & cs' & Hs' & Hk).
      injection Hk as _ <-.
      pose proof (strip_prefix_length _ _ _ Hl) as Hlen.
      unfold after in *. simpl in *. lia.
    + apply IH in H. unfold after in *. simpl. lia.
Qed.

(** The loop of [parsePlist] never runs out of fuel: any fuel above the
    length of the text gives the same result. *)
Lemma parseLoop_fuel (fuel1 fuel2 : nat) :
  forall (content : string) (result : gmap string scalar),
    (String.length content < fuel1)%nat ->
    (String.length content < fuel2)%nat ->
    parseLoop fuel1 content result = parseLoop fuel2 content result.
Proof.
  revert fuel2; induction fuel1 as [|fuel1 IH]; intros fuel2 content result H1 H2.
  - lia.
  - destruct fuel2 as [|fuel2]; [lia|].
    rewrite !parseLoop_S.
    destruct (exec keyRegex content) as [[cs rest]|] eqn:He; [|reflexivity].
    apply exec_keyRegex_after in He. unfold after in He.
    apply IH; lia.
Qed.

(** * The dictionary of a document *)

Lemma closeFree_app (a b : string) :
  closeFree a = true -> closeFree b = true -> closeFree (a +:+ b) = true.
Proof.
  intros Ha Hb. induction a as [|c a IH]; [exact Hb|].
  rewrite append_cons. simpl in *.
  apply andb_true_iff in Ha as [Hc Ha]. rewrite (IH Ha), andb_true_r.
  destruct (Ascii.eqb c "<"); [|reflexivity].
  destruct a as [|x [|y a]]; try discriminate. exact Hc.
Qed.

Lemma closeFree_notLt (s : string) :
  Str.all notLt s = true -> closeFree s = true.
Proof.
  induction s as [|c s IH]; [reflexivity|]. simpl.
  intros [Hc Hs]%andb_true_iff. rewrite (IH Hs), andb_true_r.
  unfold notLt in Hc. now destruct (Ascii.eqb c "<").
Qed.

Lemma closeFree_suffix (a b : string) :
  closeFree (a +:+ b) = true -> closeFree b = true.
Proof.
  induction a as [|c a IH]; [trivial|].
  rewrite append_cons. simpl. intros [_ H]%andb_true_iff. now apply IH.
Qed.

Lemma closeFree_strip (b tail : string) :
  closeFree b = true -> b <> "" ->
  Str.strip_prefix "</dict>" (b +:+ tail) = None.
Proof.
  destruct b as [|c b]; [congruence|]. intros Hb _.
  rewrite append_cons. simpl in *.
  apply andb_true_iff in Hb as [Hc _].
  destruct (Ascii.eqb c "<"); [|reflexivity].
  destruct b as [|x [|y b]]; try discriminate.
  rewrite !append_cons.
  destruct (Ascii.eqb x "/"); [|reflexivity].
  destruct (Ascii.eqb y "d"); [discriminate|reflexivity].
Qed.

Lemma all_anyChar (s : string) : Str.all anyChar s = true.
Proof. induction s as [|c s IH]; [reflexivity|exact IH]. Qed.

Lemma rx_dictRegex (content tail : string) :
  closeFree content = true ->
  rx dictRegex accept ("<dict>" +:+ content +:+ "</dict>" +:+ tail) []
  = Some ([(1%nat, content)], tail).
Proof.
  intros Hfree. unfold dictRegex.
  rewrite rx_Cat, rx_Lit, rx_Cat, rx_Grp.
  change (rx (Rep false 0 anyChar)) with (repLazy (A:=captures * string) anyChar 0).
  rewrite repLazy_skip.
  - apply repLazy_here. now rewrite rx_Lit, consumed_append.
  - apply all_anyChar.
  - intros a b -> Hb. cbv beta. apply rx_Lit_fail.
    apply closeFree_strip; [|exact Hb].
    now apply closeFree_suffix in Hfree.
Qed.

Lemma exec_dictRegex_header (s : string) :
  exec dictRegex (plistHeader +:+ s) = exec dictRegex s.
Proof. vm_compute. reflexivity. Qed.

Lemma parsePlist_document (content : string) :
  closeFree content = true ->
  parsePlist (plistHeader +:+ ("<dict>" +:+ content +:+ "</dict>")
              +:+ plistFooter)
  = parseLoop (S (String.length content)) content ∅.
Proof.
  intros Hfree. unfold parsePlist.
  rewrite exec_dictRegex_header, !append_assoc.
  rewrite (exec_here _ _ _ (rx_dictRegex content plistFooter Hfree)).
  reflexivity.
Qed.

(** * Numbers *)

Lemma all_app (p : ascii -> bool) (a b : string) :
  Str.all p (a +:+ b) = Str.all p a && Str.all p b.
Proof.
  induction a as [|c a IH]; [reflexivity|].
  rewrite append_cons. simpl. now rewrite IH, andb_assoc.
Qed.

Lemma all_impl (p q : ascii -> bool) (s : string) :
  (forall c, p c = true -> q c = true) ->
  Str.all p s = true -> Str.all q s = true.
Proof.
  intros Hpq. induction s as [|c s IH]; [reflexivity|]. simpl.
  intros [Hc Hs]%andb_true_iff. now rewrite (Hpq c Hc), IH.
Qed.

Lemma span_all (p : ascii -> bool) (d r : string) :
  Str.all p d = true -> stops p r -> Str.span p (d +:+ r) = (d, r).
Proof.
  intros Hd Hr. induction d as [|c d IH].
  - rewrite append_nil. destruct r as [|c r]; [reflexivity|].
    simpl in *. now rewrite Hr.
  - rewrite append_cons. simpl in *.
    apply andb_true_iff in Hd as [Hc Hd]. now rewrite Hc, (IH Hd).
Qed.

Lemma numeral_app (base a : Z) (s1 s2 : string) :
  numeral base a (s1 +:+ s2)
  = match numeral base a s1 with
    | Some v => numeral base v s2
    | None => None
    end.
Proof.
  revert a; induction s1 as [|c s1 IH]; intros a; [reflexivity|].
  rewrite append_cons. simpl. destruct (digitIn base c); [apply IH|reflexivity].
Qed.

Lemma digit_cases (d : Z) :
  0 <= d < 10 ->
  d = 0 \/ d = 1 \/ d = 2 \/ d = 3 \/ d = 4 \/ d = 5 \/ d = 6 \/ d = 7 \/
  d = 8 \/ d = 9.
Proof. lia. Qed.

Lemma digitIn_digitChar (d : Z) :
  0 <= d < 10 -> digitIn 10 (digitChar d) = Some d.
Proof.
  intros H. destruct (digit_cases d H) as [->|[->|[->|[->|[->|[->|[->|[->|[->| ->]]]]]]]]];
    reflexivity.
Qed.

Lemma isDigit_digitChar (d : Z) :
  0 <= d < 10 -> isDigit (digitChar d) = true.
Proof.
  intros H. destruct (digit_cases d H) as [->|[->|[->|[->|[->|[->|[->|[->|[->| ->]]]]]]]]];
    reflexivity.
Qed.

Lemma numeral_digitChar (a n : Z) :
  0 <= n < 10 ->
  numeral 10 a (String (digitChar n) "") = Some (10 * a + n).
Proof.
  intros Hn. cbn [numeral]. now rewrite digitIn_digitChar.
Qed.

Lemma all_digitChar (n : Z) :
  0 <= n < 10 -> Str.all isDigit (String (digitChar n) "") = true.
Proof.
  intros Hn. cbn [Str.all]. now rewrite isDigit_digitChar.
Qed.

Lemma digitsFuel_O (n : Z) (acc : string) :
  digitsFuel 0 n acc = String (digitChar (n mod 10)) acc.
Proof. reflexivity. Qed.

Lemma digitsFuel_S (fuel : nat) (n : Z) (acc : string) :
  digitsFuel (S fuel) n acc =
  if n / 10 =? 0 then String (digitChar (n mod 10)) acc
  else digitsFuel fuel (n / 10) (String (digitChar (n mod 10)) acc).
Proof. reflexivity. Qed.

Lemma digitsFuel_spec (fuel : nat) :
  forall (n : Z) (acc : string),
    0 <= n < 10 ^ Z.of_nat (S fuel) ->
    exists d, digitsFuel fuel n acc = d +:+ acc /\
      Str.all isDigit d = true /\ d <> "" /\ numeral 10 0 d = Some n.
Proof.
  induction fuel as [|fuel IH]; intros n acc Hn.
  - exists (String (digitChar n) "").
    change (10 ^ Z.of_nat 1) with 10 in Hn.
    assert (Hmod : n mod 10 = n) by (apply Z.mod_small; lia).
    rewrite digitsFuel_O, Hmod. repeat split.
    + now apply all_digitChar.
    + discriminate.
    + rewrite numeral_digitChar by lia. f_equal; lia.
  - assert (Hm : 0 <= n mod 10 < 10) by (apply Z.mod_pos_bound; lia).
    rewrite digitsFuel_S. destruct (Z.eqb_spec (n / 10) 0) as [Hq|Hq].
    + exists (String (digitChar (n mod 10)) "").
      assert (Hsmall : n mod 10 = n).
      { pose proof (Z.div_mod n 10 ltac:(lia)). lia. }
      rewrite Hsmall in *. repeat split.
      * now apply all_digitChar.
      * discriminate.
      * rewrite numeral_digitChar by lia. f_equal; lia.
    + destruct (IH (n / 10) (String (digitChar (n mod 10)) acc))
        as (d & Hd & Hall & Hne & Hval).
      { split; [apply Z.div_pos; lia|].
        apply Z.div_lt_upper_bound; [lia|].
        replace (Z.of_nat (S (S fuel))) with (Z.succ (Z.of_nat (S fuel)))
          in Hn by lia.
        rewrite Z.pow_succ_r in Hn by lia. lia. }
      exists (d +:+ String (digitChar (n mod 10)) ""). repeat split.
      * rewrite Hd, append_assoc. reflexivity.
      * rewrite all_app, Hall. now apply all_digitChar.
      * destruct d; [congruence|discriminate].
      * rewrite numeral_app, Hval. rewrite numeral_digitChar by lia.
        f_equal. pose proof (Z.div_mod n 10 ltac:(lia)). lia.
Qed.

Lemma digits_spec (n : Z) :
  0 <= n ->
  Str.all isDigit (digits n) = true /\ digits n <> "" /\
  numeral 10 0 (digits n) = Some n.
Proof.
  intros Hn. unfold digits.
  destruct (digitsFuel_spec (Z.to_nat (Z.log2 n)) n "") as (d & Hd & H).
  - split; [exact Hn|].
    destruct (Z.eq_dec n 0) as [->|Hpos].
    + apply Z.pow_pos_nonneg; lia.
    + pose proof (Z.log2_spec n ltac:(lia)) as [_ Hlt].
      pose proof (Z.log2_nonneg n).
      replace (Z.of_nat (S (Z.to_nat (Z.log2 n)))) with (Z.succ (Z.log2 n))
        by lia.
      eapply Z.lt_le_trans; [exact Hlt|].
      apply Z.pow_le_mono_l. lia.
  - rewrite Hd, append_empty_r. exact H.
Qed.

Lemma isDigit_range (c : ascii) :
  isDigit c = true <-> 48 <= codeUnit c <= 57.
Proof.
  unfold isDigit, digit.
  destruct (Z.leb_spec 48 (codeUnit c)), (Z.leb_spec (codeUnit c) 57);
    simpl; split; intros; try lia; try discriminate; reflexivity.
Qed.

Lemma isDigit_not_space (c : ascii) :
  isDigit c = true -> isWhiteSpace c = false.
Proof.
  rewrite isDigit_range. intros Hc. unfold isWhiteSpace.
  destruct (Z.leb_spec 9 (codeUnit c)), (Z.leb_spec (codeUnit c) 13),
    (Z.eqb_spec (codeUnit c) 32), (Z.eqb_spec (codeUnit c) 160);
    simpl; try lia; reflexivity.
Qed.

Lemma isDigit_neq (c x : ascii) :
  isDigit c = true -> isDigit x = false -> Ascii.eqb c x = false.
Proof.
  intros Hc Hx. destruct (Ascii.eqb_spec c x) as [->|]; [congruence|reflexivity].
Qed.

Lemma trimStart_id (s : string) : stops isWhiteSpace s -> trimStart s = s.
Proof. destruct s as [|c s]; [reflexivity|]. simpl. now intros ->. Qed.

Lemma trimEnd_notSpace (s : string) :
  Str.all notSpace s = true -> trimEnd s = s.
Proof.
  induction s as [|c s IH]; [reflexivity|]. simpl.
  intros [Hc Hs]%andb_true_iff. rewrite (IH Hs).
  apply negb_true_iff in Hc. now rewrite Hc, andb_false_r.
Qed.

Lemma isDigit_notSpace (c : ascii) : isDigit c = true -> notSpace c = true.
Proof. intros Hc. unfold notSpace. now rewrite isDigit_not_space. Qed.

Lemma isDigit_notLt (c : ascii) : isDigit c = true -> notLt c = true.
Proof.
  intros Hc. unfold notLt. now rewrite (isDigit_neq c "<" Hc eq_refl).
Qed.

Lemma all_digit_notSpace (d : string) :
  Str.all isDigit d = true -> Str.all notSpace d = true.
Proof. apply all_impl, isDigit_notSpace. Qed.




(** * Encoding and decoding a dictionary of leaves *)

Lemma convertValue_scalar (v : scalar) :
  convertValue (jsval_of_scalar v) = wireText (wireOf v).
Proof.
  destruct v as [s|n|b]; simpl; [reflexivity| |reflexivity].
  now destruct (isInteger n).
Qed.

Lemma convertValue_object (m : list (string * scalar)) :
  convertValue (JObj (encodeObject m))
  = "<dict>" +:+ entriesText (wireEntries m) +:+ "</dict>".
Proof.
  cbn [convertValue]. do 2 f_equal.
  unfold entriesText, encodeObject, wireEntries. rewrite !map_map.
  f_equal. apply map_ext. intros [k v]. cbn [fst snd].
  unfold entryText. cbn [fst snd]. now rewrite convertValue_scalar.
Qed.

Lemma closeFree_wireText (w : wireValue) :
  wireOk w -> closeFree (wireText w) = true.
Proof.
  destruct w as [tag text|[]]; [|reflexivity..].
  intros [Htag Htext]. apply closeFree_notLt in Htext.
  cbn [wireText]. unfold element.
  destruct Htag as [->|[->| ->]].
  - change (closeFree ("<string>" +:+ text +:+ "</string>") = true).
    now repeat apply closeFree_app.
  - change (closeFree ("<integer>" +:+ text +:+ "</integer>") = true).
    now repeat apply closeFree_app.
  - change (closeFree ("<real>" +:+ text +:+ "</real>") = true).
    now repeat apply closeFree_app.
Qed.

Lemma closeFree_entries (l : list (string * wireValue)) :
  Forall (fun kw => keyOk (fst kw) /\ wireOk (snd kw)) l ->
  closeFree (entriesText l) = true.
Proof.
  induction 1 as [|[k w] l [[_ Hk] Hw] Hl IH]; [reflexivity|].
  rewrite entriesText_cons. apply closeFree_app; [|exact IH].
  unfold entryText. cbn [fst snd] in *.
  repeat apply closeFree_app;
    [reflexivity|now apply closeFree_notLt|reflexivity
    |now apply closeFree_wireText].
Qed.

Lemma length_entries (l : list (string * wireValue)) :
  (length l <= String.length (entriesText l))%nat.
Proof.
  induction l as [|kw l IH]; [simpl; lia|].
  rewrite entriesText_cons, length_append. unfold entryText.
  rewrite append_cons. simpl. lia.
Qed.

(** The decoding of an encoded dictionary, for all leaves: each entry is
    stored in turn, a text being read as a number when it is one. *)
Lemma parsePlist_toPlist_entries (m : list (string * scalar)) :
  Forall (fun kw => keyOk (fst kw) /\ wireOk (snd kw)) (wireEntries m) ->
  parsePlist (toPlist (encodeObject m)) = foldl store ∅ (wireEntries m).
Proof.
  intros Hm. unfold toPlist. rewrite convertValue_object.
  rewrite parsePlist_document by now apply closeFree_entries.
  apply parseLoop_entries; [exact Hm|].
  pose proof (length_entries (wireEntries m)). lia.
Qed.

(** * Reading the text of an integer *)

Lemma digitIn_isDigit (c : ascii) :
  isDigit c = true -> exists d, digitIn 10 c = Some d /\ 0 <= d < 10.
Proof.
  intros Hc. pose proof (proj1 (isDigit_range c) Hc) as Hr.
  exists (codeUnit c - 48). unfold digitIn, hexDigit, digit.
  destruct (Z.leb_spec 97 (codeUnit c)); [lia|].
  destruct (Z.leb_spec 65 (codeUnit c)), (Z.leb_spec (codeUnit c) 70);
    try lia; cbn [andb];
    destruct (Z.leb_spec 48 (codeUnit c)), (Z.leb_spec (codeUnit c) 57);
    try lia; cbn [andb];
    (destruct (Z.ltb_spec (codeUnit c - 48) 10); [split; [reflexivity|lia]|lia]).
Qed.

Lemma numeral_digits_total (a : Z) (s : string) :
  Str.all isDigit s = true -> 0 <= a ->
  exists v, numeral 10 a s = Some v /\ a <= v.
Proof.
  revert a; induction s as [|c s IH]; intros a Hs Ha.
  - exists a. split; [reflexivity|lia].
  - cbn [Str.all] in Hs. apply andb_true_iff in Hs as [Hc Hs].
    destruct (digitIn_isDigit c Hc) as (d & Hd & Hr).
    cbn [numeral]. rewrite Hd.
    destruct (IH (10 * a + d) Hs ltac:(lia)) as (v & Hv & Hle).
    exists v. split; [exact Hv|lia].
Qed.

Lemma trimZerosEnd_cons (c : ascii) (s : string) :
  trimZerosEnd (String c s) =
  if Str.is_empty (trimZerosEnd s) && Ascii.eqb c "0" then ""
  else String c (trimZerosEnd s).
Proof. reflexivity. Qed.


Lemma exponential_eq (d : ascii) (r : string) (n : Z) :
  1 <= n ->
  exponential (String d r) n
  = String d (fraction r +:+ String "e" (String "+" (digits (n - 1)))).
Proof.
  intros Hn. unfold exponential.
  destruct (Z.ltb_spec (n - 1) 0) as [|_]; [lia|].
  rewrite Z.abs_eq by lia.
  destruct r as [|c r]; reflexivity.
Qed.

Lemma parseExponent_plus (E : Z) :
  0 <= E ->
  parseExponent (String "e" (String "+" (digits E))) = Some E.
Proof.
  intros HE. destruct (digits_spec E HE) as (_ & Hne & Hval).
  cbn [parseExponent Ascii.eqb Bool.eqb orb].
  unfold nonEmptyNumeral. destruct (digits E); [congruence|exact Hval].
Qed.

Lemma span_fraction (r : string) (E : Z) :
  Str.all isDigit r = true ->
  match fraction r +:+ String "e" (String "+" (digits E)) with
  | String c r' =>
      if Ascii.eqb c "." then Str.span isDigit r'
      else (EmptyString, fraction r +:+ String "e" (String "+" (digits E)))
  | EmptyString =>
      (EmptyString, fraction r +:+ String "e" (String "+" (digits E)))
  end = (r, String "e" (String "+" (digits E))).
Proof.
  intros Hr. destruct r as [|c r]; [reflexivity|].
  cbn [fraction]. rewrite !append_cons, append_nil.
  cbn [Ascii.eqb Bool.eqb].
  now apply span_all.
Qed.

Lemma parseUnsignedDecimal_exponential (d : ascii) (r : string) (n v : Z) :
  Str.all isDigit (String d r) = true ->
  numeral 10 0 (String d r) = Some v -> v <> 0 ->
  Z.of_nat (String.length (String d r)) <= n ->
  parseUnsignedDecimal (exponential (String d r) n)
  = Some (NInt (v * 10 ^ (n - Z.of_nat (String.length (String d r))))).
Proof.
  intros Hall Hv Hnz Hn.
  assert (Hd : isDigit d = true) by now apply andb_true_iff in Hall.
  assert (Hr : Str.all isDigit r = true) by now apply andb_true_iff in Hall.
  cbn [String.length] in *.
  rewrite exponential_eq by lia. unfold parseUnsignedDecimal.
  assert (Hinf : forall x, String.eqb (String d x) "Infinity" = false).
  { intros x. simpl. now rewrite (isDigit_neq d "I" Hd eq_refl). }
  rewrite Hinf.
  assert (Hspan : Str.span isDigit
            (String d (fraction r +:+ String "e" (String "+" (digits (n - 1)))))
          = (String d "", fraction r +:+ String "e" (String "+" (digits (n - 1))))).
  { apply (span_all isDigit (String d "")).
    - cbn [Str.all]. now rewrite Hd.
    - now destruct r. }
  rewrite Hspan, (span_fraction r (n - 1) Hr).
  cbn [Str.is_empty andb]. rewrite append_cons, append_nil, Hv.
  rewrite parseExponent_plus by lia.
  unfold normalize. destruct (Z.eqb_spec v 0) as [|_]; [contradiction|].
  destruct (Z.leb_spec 0 (n - 1 - Z.of_nat (String.length r))) as [_|]; [|lia].
  do 4 f_equal. lia.
Qed.

Lemma all_notSpace_exponential (d : ascii) (r : string) (n : Z) :
  Str.all isDigit (String d r) = true -> 1 <= n ->
  Str.all notSpace (exponential (String d r) n) = true.
Proof.
  intros Hall Hn. rewrite exponential_eq by lia.
  cbn [Str.all] in *. apply andb_true_iff in Hall as [Hd Hr].
  unfold notSpace at 1. rewrite (isDigit_not_space d Hd). cbn [negb andb].
  rewrite all_app. cbn [Str.all].
  destruct (digits_spec (n - 1) ltac:(lia)) as (HE & _).
  rewrite (all_digit_notSpace _ HE).
  assert (Hf : Str.all notSpace (fraction r) = true).
  { destruct r as [|c r]; [reflexivity|]. unfold fraction.
    rewrite all_app, (all_digit_notSpace _ Hr). reflexivity. }
  rewrite Hf. reflexivity.
Qed.

Lemma Number_exponential (d : ascii) (r : string) (n v : Z) :
  Str.all isDigit (String d r) = true ->
  numeral 10 0 (String d r) = Some v -> v <> 0 ->
  Z.of_nat (String.length (String d r)) <= n ->
  Number (exponential (String d r) n)
  = Some (NInt (v * 10 ^ (n - Z.of_nat (String.length (String d r))))).
Proof.
  intros Hall Hv Hnz Hn.
  assert (Hd : isDigit d = true) by now apply andb_true_iff in Hall.
  assert (H1 : 1 <= n) by (cbn [String.length] in Hn; lia).
  rewrite <- (parseUnsignedDecimal_exponential d r n v Hall Hv Hnz Hn).
  pose proof (all_notSpace_exponential d r n Hall H1) as Hns.
  unfold Number, trim. revert Hns. rewrite exponential_eq by lia. intros Hns.
  rewrite trimStart_id by (simpl; now apply isDigit_not_space).
  rewrite (trimEnd_notSpace _ Hns). cbn [Str.is_empty].
  assert (Hnd : parseNonDecimal
            (String d (fraction r +:+ String "e" (String "+" (digits (n - 1)))))
          = None).
  { unfold parseNonDecimal. destruct r as [|c r]; reflexivity. }
  rewrite Hnd. unfold parseDecimal.
  now rewrite (isDigit_neq d "+" Hd eq_refl), (isDigit_neq d "-" Hd eq_refl).
Qed.







(** * Round trip *)



Lemma keyOk_wireKey (k : string) : wireKey k = true -> keyOk k.
Proof.
  unfold wireKey, keyOk. intros [Hne Hk]%andb_true_iff.
  split; [|exact Hk]. now destruct k.
Qed.


Lemma foldl_insert_list_to_map (m : list (string * scalar))
    (acc : gmap string scalar) :
  NoDup (fst <$> m) ->
  foldl (fun acc kv => <[fst kv := snd kv]> acc) acc m
  = list_to_map m ∪ acc.
Proof.
  revert acc; induction m as [|[k v] m IH]; intros acc Hnd.
  - simpl. now rewrite (left_id_L ∅ (∪)).
  - apply list.NoDup_cons in Hnd as [Hk Hnd]. simpl.
    rewrite (IH _ Hnd). rewrite <- insert_union_l.
    rewrite insert_union_r; [reflexivity|].
    now apply not_elem_of_list_to_map_1.
Qed.

Lemma assign_insert (key : string) (value : scalar)
    (result : gmap string scalar) :
  key <> "__proto__" -> assign key value result = <[key := value]> result.
Proof. intros Hk. unfold assign. now rewrite decide_False. Qed.





(* ===================================================================== *)
(** * Properties of the transition system *)
(* ===================================================================== *)

Section Lists.
Context {A : Type} (P : A -> Prop) `{forall x, Decision (P x)}.



Lemma filter_insert_same (l : list A) (i : nat) (x y : A) :
  l !! i = Some y -> (P y <-> P x) ->
  length (filter P (<[i:=x]> l)) = length (filter P l).
Proof.
  revert i; induction l as [|z l IH]; intros [|i] Hl Hiff; simpl in *;
    try discriminate.
  - injection Hl as ->. rewrite !filter_cons.
    repeat case_decide; simpl; tauto.
  - rewrite !filter_cons. specialize (IH i Hl Hiff).
    case_decide; simpl; lia.
Qed.
End Lists.

Lemma reachable_run (rs : list request) (st : state) :
  reachable st -> reachable (run rs st).
Proof.
  revert st; induction rs as [|r rs IH]; intros st Hst; simpl.
  - exact Hst.
  - apply IH. now constructor.
Qed.

Lemma commandsOf_insert (ds : gmap key MDMDevice.t)
    (q : gmap key (list MDMCommand.t)) (k k' : key) (l : list MDMCommand.t) :
  commandsOf (mkState ds (<[k := l]> q)) k' =
  if decide (k = k') then l else commandsOf (mkState ds q) k'.
Proof.
  unfold commandsOf; simpl. rewrite lookup_insert.
  now destruct (decide (k = k')).
Qed.

Lemma commandsOf_devices (ds ds' : gmap key MDMDevice.t)
    (q : gmap key (list MDMCommand.t)) (k : key) :
  commandsOf (mkState ds q) k = commandsOf (mkState ds' q) k.
Proof. reflexivity. Qed.

(** ** Resolving *)

Lemma processCommandResponse_found (st : state) (udid : key)
    (response : gmap string scalar) (now : time) (i : nat)
    (c : MDMCommand.t) :
  list_find (fun cmd => Some (SStr (MDMCommand.id cmd))
                        = response !! "CommandUUID") (commandsOf st udid)
    = Some (i, c) ->
  fst (processCommandResponse udid response now st) =
  mkState (devices st)
    (<[udid := <[i := completed response now c]> (commandsOf st udid)]>
       (commandQueue st)).
Proof. intros Hf. unfold processCommandResponse. now rewrite Hf. Qed.

Lemma processCommandResponse_not_found (st : state) (udid : key)
    (response : gmap string scalar) (now : time) :
  list_find (fun cmd => Some (SStr (MDMCommand.id cmd))
                        = response !! "CommandUUID") (commandsOf st udid)
    = None ->
  fst (processCommandResponse udid response now st) = st.
Proof. intros Hf. unfold processCommandResponse. now rewrite Hf. Qed.

Lemma find_first_with_id (l : list MDMCommand.t)
    (response : gmap string scalar) (i : nat) (c : MDMCommand.t) :
  l !! i = Some c ->
  response !! "CommandUUID" = Some (SStr (MDMCommand.id c)) ->
  (forall j c', (j < i)%nat -> l !! j = Some c' ->
     MDMCommand.id c' <> MDMCommand.id c) ->
  list_find (fun cmd => Some (SStr (MDMCommand.id cmd))
                        = response !! "CommandUUID") l = Some (i, c).
Proof.
  intros Hl Hid Hfirst. apply list_find_Some. split; [exact Hl|].
  split; [now rewrite Hid|].
  intros j y Hj Hlt Heq. rewrite Hid in Heq.
  apply (Hfirst j y Hlt Hj). congruence.
Qed.

Lemma resolve_at (st : state) (udid : key) (response : gmap string scalar)
    (now : time) (i : nat) (c : MDMCommand.t) :
  commandsOf st udid !! i = Some c ->
  response !! "CommandUUID" = Some (SStr (MDMCommand.id c)) ->
  (forall j c', (j < i)%nat -> commandsOf st udid !! j = Some c' ->
     MDMCommand.id c' <> MDMCommand.id c) ->
  commandsOf (fst (processCommandResponse udid response now st)) udid =
  <[i := completed response now c]> (commandsOf st udid).
Proof.
  intros Hl Hid Hfirst.
  rewrite (processCommandResponse_found st udid response now i c)
    by now apply find_first_with_id.
  rewrite commandsOf_insert. now rewrite decide_True.
Qed.

(** The two ways the call of [processCommandResponse] by the command
    endpoint ends. *)
Ltac resolved :=
  match goal with
  | |- context [match processCommandResponse ?u ?r ?t ?s with _ => _ end] =>
      let H := fresh in
      let s1 := fresh "st" in
      destruct (processCommandResponse u r t s) as [s1 []] eqn:H;
      apply (f_equal fst) in H; cbn [fst] in H; subst s1
  end.





(** ** Check-in *)

Lemma pushInvariant_insert (st : state) (k : key) (d : MDMDevice.t)
    (q : gmap key (list MDMCommand.t)) :
  pushInvariant st ->
  (MDMDevice.pushToken d <> None \/ MDMDevice.pushMagic d <> None ->
   enrollmentCompleted d) ->
  pushInvariant (mkState (<[k := d]> (devices st)) q).
Proof.
  intros Hst Hd k' d'. simpl. rewrite lookup_insert.
  destruct (decide (k = k')) as [->|Hne]; intros Hl.
  - injection Hl as <-. exact Hd.
  - exact (Hst k' d' Hl).
Qed.

Lemma pushInvariant_queue (st : state) (q : gmap key (list MDMCommand.t)) :
  pushInvariant st -> pushInvariant (mkState (devices st) q).
Proof. intros Hst k d. apply Hst. Qed.

Lemma pushInvariant_checkin (body uuid : string) (now : time) (st : state) :
  pushInvariant st -> pushInvariant (fst (checkin body uuid now st)).
Proof.
  intros Hst. unfold checkin.
  repeat case_decide; simpl; try exact Hst.
  - apply pushInvariant_insert; [exact Hst|].
    simpl. intros [Hc|Hc]; now contradict Hc.
  - unfold handleTokenUpdate. case_match; simpl; [|exact Hst].
    apply pushInvariant_insert; [exact Hst|].
    intros _. split; simpl; discriminate.
  - unfold handleCheckOut. case_match eqn:Hd; simpl; [|exact Hst].
    apply pushInvariant_insert; [exact Hst|].
    simpl. intros Hp. split; simpl; [discriminate|].
    now apply (Hst _ _ Hd).
Qed.

Lemma pushInvariant_mdm (body : string) (now : time) (st : state) :
  pushInvariant st -> pushInvariant (fst (mdm body now st)).
Proof.
  intros Hst. unfold mdm.
  destruct (devices st !! (parsePlist body !! "UDID")) as [d|] eqn:Hd;
    simpl; [|exact Hst].
  assert (Ht : pushInvariant
            (mkState (<[parsePlist body !! "UDID" :=
                          MDMDevice.set_lastCheckIn (Some now) d]> (devices st))
                     (commandQueue st))).
  { apply pushInvariant_insert; [exact Hst|]. simpl. now apply (Hst _ _ Hd). }
  assert (Hs : forall log st1, pushInvariant st1 ->
            pushInvariant (fst (sendNext log (parsePlist body !! "UDID")
                                  now st1))).
  { intros log st1 H1. unfold sendNext.
    case_match; [case_match|]; simpl; exact H1. }
  assert (Hr : pushInvariant
            (fst (processCommandResponse (parsePlist body !! "UDID")
                    (parsePlist body) now
                    (mkState (<[parsePlist body !! "UDID" :=
                                  MDMDevice.set_lastCheckIn (Some now) d]>
                                (devices st))
                             (commandQueue st))))).
  { unfold processCommandResponse. repeat (case_match; simpl); exact Ht. }
  repeat case_decide; try exact Ht.
  - now apply Hs.
  - resolved; cbn [fst]; [now apply Hs|exact Hr].
Qed.

Lemma pushInvariant_reachable (st : state) :
  reachable st -> pushInvariant st.
Proof.
  induction 1 as [|st r Hst IH].
  - intros k d Hl. simpl in Hl. now rewrite lookup_empty in Hl.
  - destruct r; simpl.
    + now apply pushInvariant_checkin.
    + now apply pushInvariant_mdm.
    + unfold postCommands. case_match; simpl; [|exact IH].
      now apply pushInvariant_queue.
    + now apply pushInvariant_queue.
    + now apply pushInvariant_queue.
Qed.

(* ===================================================================== *)
(** * Command queue *)
(* ===================================================================== *)

(** C1, as stated, fails: after two commands are queued for A1 and A1 has
    polled once, the first command is [sent] and unresolved, and the
    next-command selection returns the second one. *)
Lemma getNextCommand_sent_does_not_block :
  ~ (forall st udid i j c1 c2,
       reachable st -> (i < j)%nat ->
       commandsOf st udid !! i = Some c1 ->
       commandsOf st udid !! j = Some c2 ->
       MDMCommand.status c1 = CPending \/ MDMCommand.status c1 = CSent ->
       getNextCommand st udid <> Some (j, c2)).
Proof.
  intros Hclaim.
  pose (c1 := MDMCommand.set_sentAt (Some 5) (MDMCommand.set_status CSent
                (newCommand Sample.uuid1 "A1" (JStr "Cmd1") JUndefined 3))).
  pose (c2 := newCommand Sample.uuid2 "A1" (JStr "Cmd2") JUndefined 4).
  apply (Hclaim Sample.polledOnce Sample.A1 0%nat 1%nat c1 c2).
  - unfold Sample.polledOnce, Sample.queued, Sample.enrolled.
    repeat apply reachable_run. constructor.
  - lia.
  - vm_compute. reflexivity.
  - vm_compute. reflexivity.
  - right. reflexivity.
  - vm_compute. reflexivity.
Qed.

(** C1, amended: the next-command selection returns the oldest [pending]
    command of the device, and nothing else: it returns the command at
    position [j] exactly when that command is [pending] and no command
    queued before it is [pending]. *)
Theorem getNextCommand_oldest_pending (st : state) (udid : key) (j : nat)
    (c : MDMCommand.t) :
  getNextCommand st udid = Some (j, c) <->
  commandsOf st udid !! j = Some c /\
  MDMCommand.status c = CPending /\
  (forall i c1, (i < j)%nat -> commandsOf st udid !! i = Some c1 ->
     MDMCommand.status c1 <> CPending).
Proof.
  unfold getNextCommand. rewrite list_find_Some.
  split; intros (Hl & Hc & Hbefore); repeat split; try assumption.
  - intros i c1 Hlt Hi. exact (Hbefore i c1 Hi Hlt).
  - intros i c1 Hi Hlt. exact (Hbefore i c1 Hlt Hi).
Qed.



(** C6, as stated, fails: no resolution sets [failed].  A report with
    status [Error] that references the [sent] command of A1 leaves it
    [sent] when it goes through the command endpoint, and resolving with
    that very report sets the command to [completed]. *)
Lemma resolve_never_fails :
  let report := Sample.report "Error" Sample.id1 in
  let st := Sample.polledOnce in
  MDMCommand.status <$> commandsOf st Sample.A1 !! 0%nat = Some CSent /\
  parsePlist report !! "CommandUUID" = Some (SStr Sample.id1) /\
  MDMCommand.id <$> commandsOf st Sample.A1 !! 0%nat = Some Sample.id1 /\
  MDMCommand.status <$>
    commandsOf (fst (handle (PutMdm report 7) st)) Sample.A1 !! 0%nat
    = Some CSent /\
  MDMCommand.status <$>
    commandsOf (fst (processCommandResponse Sample.A1 (parsePlist report) 7 st))
      Sample.A1 !! 0%nat
    = Some CCompleted.
Proof. vm_compute. repeat split. Qed.

(** C6, amended: resolving a [sent] command, the first of its device with
    the referenced identifier, sets it to [completed], stamps completed-at
    and stores the decoded report as its response, whatever the report
    says; its error message and its other fields stay as they were. *)
Theorem resolve_sent_completes (st : state) (udid : key)
    (response : gmap string scalar) (now : time) (i : nat)
    (c : MDMCommand.t) :
  commandsOf st udid !! i = Some c ->
  MDMCommand.status c = CSent ->
  response !! "CommandUUID" = Some (SStr (MDMCommand.id c)) ->
  (forall j c', (j < i)%nat -> commandsOf st udid !! j = Some c' ->
     MDMCommand.id c' <> MDMCommand.id c) ->
  let c' :=
    {| MDMCommand.id := MDMCommand.id c;
       MDMCommand.deviceId := MDMCommand.deviceId c;
       MDMCommand.commandType := MDMCommand.commandType c;
       MDMCommand.payload := MDMCommand.payload c;
       MDMCommand.status := CCompleted;
       MDMCommand.createdAt := MDMCommand.createdAt c;
       MDMCommand.sentAt := MDMCommand.sentAt c;
       MDMCommand.completedAt := Some now;
       MDMCommand.response := Some response;
       MDMCommand.errorMessage := MDMCommand.errorMessage c |} in
  commandsOf (fst (processCommandResponse udid response now st)) udid !! i
    = Some c'.
Proof.
  intros Hl _ Hid Hfirst. simpl.
  rewrite (resolve_at st udid response now i c Hl Hid Hfirst).
  rewrite list_lookup_insert_eq by (eapply lookup_lt_Some; exact Hl).
  reflexivity.
Qed.

(** An instance: the acknowledged first command of A1. *)
Lemma resolve_sent_completes_witness :
  MDMCommand.status <$>
    commandsOf (fst (processCommandResponse Sample.A1
                       (parsePlist (Sample.report "Acknowledged" Sample.id1))
                       7 Sample.polledOnce)) Sample.A1 !! 0%nat
  = Some CCompleted.
Proof.
  pose (c := MDMCommand.set_sentAt (Some 5) (MDMCommand.set_status CSent
               (newCommand Sample.uuid1 "A1" (JStr "Cmd1") JUndefined 3))).
  rewrite (resolve_sent_completes Sample.polledOnce Sample.A1
             (parsePlist (Sample.report "Acknowledged" Sample.id1)) 7 0%nat c).
  - reflexivity.
  - vm_compute. reflexivity.
  - reflexivity.
  - vm_compute. reflexivity.
  - intros j c' Hj. lia.
Defined.

(** A report from a known device is answered with status 200, or with
    status 500 when a log line of the endpoint throws. *)
Lemma mdm_known_device_code (xml : string) (now : time) (st : state)
    (device : MDMDevice.t) :
  devices st !! (parsePlist xml !! "UDID") = Some device ->
  code (snd (mdm xml now st)) = 200%nat \/
  code (snd (mdm xml now st)) = 500%nat.
Proof.
  intros Hd. unfold mdm. rewrite Hd. unfold sendNext.
  repeat case_decide; repeat case_match; auto.
Qed.




(** C9, as stated, fails: a report with status [Error] from A1 that
    references its [sent] command resolves nothing and delivers nothing:
    the queue is unchanged, the second command stays [pending], and the
    answer is the empty plist. *)
Lemma error_report_is_ignored :
  let report := Sample.report "Error" Sample.id1 in
  let st := Sample.polledOnce in
  let st' := fst (handle (PutMdm report 7) st) in
  MDMCommand.status <$> commandsOf st Sample.A1 = [CSent; CPending] /\
  commandsOf st' Sample.A1 = commandsOf st Sample.A1 /\
  snd (handle (PutMdm report 7) st) = sendXml (toPlist []).
Proof. vm_compute. repeat split. Qed.

(** C9, amended: for a status report from a known device whose status tag
    is neither [Idle] nor [Acknowledged], the command endpoint refreshes
    the device's last check-in, leaves every queue unchanged (nothing is
    resolved, nothing is delivered) and answers with the empty plist. *)
Theorem mdm_other_status (body : string) (now : time) (st : state)
    (device : MDMDevice.t) :
  let report := parsePlist body in
  devices st !! (report !! "UDID") = Some device ->
  report !! "Status" <> Some (SStr "Idle") ->
  report !! "Status" <> Some (SStr "Acknowledged") ->
  mdm body now st =
  (touch (report !! "UDID") device now st, sendXml (toPlist [])).
Proof.
  intros report Hd Hidle Hack. unfold mdm. fold report. rewrite Hd.
  rewrite !decide_False by assumption. reflexivity.
Qed.

(** An instance: a [NotNow] report from A1. *)
Lemma mdm_other_status_witness :
  commandQueue (fst (mdm (Sample.report "NotNow" Sample.id1) 7
                       Sample.polledOnce))
  = commandQueue Sample.polledOnce.
Proof.
  pose (d := MDMDevice.mk Sample.uuid0 Sample.A1 (SStr "") (SStr "Phone")
               (SStr "") (SStr "") (SStr "") (SStr "") (SStr "") false
               Enrolled (Some 2) (Some 5) (Some (SStr "tok123"))
               (Some (SStr "magic"))).
  rewrite (mdm_other_status (Sample.report "NotNow" Sample.id1) 7
             Sample.polledOnce d).
  - vm_compute. reflexivity.
  - vm_compute. reflexivity.
  - vm_compute. discriminate.
  - vm_compute. discriminate.
Defined.

(* ===================================================================== *)
(** * Device registry *)
(* ===================================================================== *)

(** C4, as stated, fails: an Authenticate message for the enrolled device
    A1 puts its record back in [pending] state and drops its push token
    and push magic. *)
Lemma authenticate_drops_enrollment :
  let st := Sample.enrolled in
  let st' := fst (handle (PutCheckin Sample.authenticate Sample.uuid1 9) st) in
  (MDMDevice.enrollmentStatus <$> devices st !! Sample.A1 = Some Enrolled /\
   MDMDevice.pushToken <$> devices st !! Sample.A1
     = Some (Some (SStr "tok123")) /\
   MDMDevice.pushMagic <$> devices st !! Sample.A1
     = Some (Some (SStr "magic"))) /\
  (MDMDevice.enrollmentStatus <$> devices st' !! Sample.A1 = Some Pending /\
   MDMDevice.pushToken <$> devices st' !! Sample.A1 = Some None /\
   MDMDevice.pushMagic <$> devices st' !! Sample.A1 = Some None).
Proof. vm_compute. repeat split. Qed.

(** C4, amended: for every Authenticate handshake, whether or not the
    device identifier is already registered, the record stored under the
    identifier afterwards is a new one: its attributes are those of the
    message (blank where the message has none), its enrollment state is
    [pending], and it has no push token, no push magic, no enrolled-at and
    no last-check-in.  The records of the other identifiers and the queues
    are unchanged. *)
Theorem handleAuthenticate_replaces (message : gmap string scalar)
    (uuid : string) (st : state) :
  let st' := fst (handleAuthenticate message uuid st) in
  devices st' !! (message !! "UDID") =
    Some {| MDMDevice.id := uuid;
            MDMDevice.udid := message !! "UDID";
            MDMDevice.serialNumber := orEmpty (message !! "SerialNumber");
            MDMDevice.deviceName := orEmpty (message !! "DeviceName");
            MDMDevice.modelName := orEmpty (message !! "ModelName");
            MDMDevice.model := orEmpty (message !! "Model");
            MDMDevice.osVersion := orEmpty (message !! "OSVersion");
            MDMDevice.buildVersion := orEmpty (message !! "BuildVersion");
            MDMDevice.productName := orEmpty (message !! "ProductName");
            MDMDevice.isSupervised := false;
            MDMDevice.enrollmentStatus := Pending;
            MDMDevice.enrolledAt := None;
            MDMDevice.lastCheckIn := None;
            MDMDevice.pushToken := None;
            MDMDevice.pushMagic := None |} /\
  (forall k, k <> message !! "UDID" -> devices st' !! k = devices st !! k) /\
  commandQueue st' = commandQueue st.
Proof.
  simpl. split; [apply lookup_insert_eq|]. split; [|reflexivity].
  intros k Hk. now apply lookup_insert_ne.
Qed.

(** C5, as stated, fails: a TokenUpdate for A1 received by the server in
    its initial state, where A1 was never authenticated, is answered with
    the empty plist and creates no record. *)
Lemma tokenUpdate_creates_no_record :
  let result := handle (PutCheckin Sample.tokenUpdate Sample.uuid0 2) initial in
  parsePlist Sample.tokenUpdate !! "MessageType" = Some (SStr "TokenUpdate") /\
  parsePlist Sample.tokenUpdate !! "UDID" = Sample.A1 /\
  devices (fst result) !! Sample.A1 = None /\
  snd result = sendXml (toPlist []).
Proof. vm_compute. repeat split. Qed.

(** C5, amended: a TokenUpdate whose device identifier has no registry
    record is accepted, not rejected: it is answered with the empty plist,
    and it changes nothing: no record is created. *)
Theorem handleTokenUpdate_unknown (message : gmap string scalar)
    (now : time) (st : state) :
  devices st !! (message !! "UDID") = None ->
  handleTokenUpdate message now st = (st, sendXml (toPlist [])).
Proof. intros Hd. unfold handleTokenUpdate. now rewrite Hd. Qed.

(** An instance: the first request a server receives is a TokenUpdate. *)
Lemma handleTokenUpdate_unknown_witness :
  handleTokenUpdate (parsePlist Sample.tokenUpdate) 2 initial
  = (initial, sendXml (toPlist [])).
Proof.
  apply (handleTokenUpdate_unknown (parsePlist Sample.tokenUpdate) 2 initial).
  apply lookup_empty.
Defined.

(** The route [/api/devices/:udid/commands] refuses an identifier without
    a registry record and leaves the state as it was. *)
Lemma postCommands_unknown (udid : string) (commandType payload : jsval)
    (uuid : string) (now : time) (st : state) :
  devices st !! Some (SStr udid) = None ->
  postCommands udid commandType payload uuid now st
  = (st, mkResponse 404 (JsonError "Device not found")).
Proof. intros Hd. unfold postCommands. now rewrite Hd. Qed.

(** The routes [/api/devices/:udid/lock] and [/api/devices/:udid/query]
    queue their command whatever the registry holds. *)
Lemma postLock_appends (udid : string) (message phoneNumber : jsval)
    (uuid : string) (now : time) (st : state) :
  let result := postLock udid message phoneNumber uuid now st in
  code (snd result) = 200%nat /\
  commandsOf (fst result) (Some (SStr udid)) =
    commandsOf st (Some (SStr udid)) ++
    [newCommand uuid udid (JStr "DeviceLock")
       (JObj [("Message", message); ("PhoneNumber", phoneNumber)]) now].
Proof.
  simpl. split; [reflexivity|].
  unfold pushCommand. rewrite commandsOf_insert. now rewrite decide_True.
Qed.

Lemma postQuery_appends (udid : string) (queries : jsval)
    (uuid : string) (now : time) (st : state) :
  let result := postQuery udid queries uuid now st in
  code (snd result) = 200%nat /\
  commandsOf (fst result) (Some (SStr udid)) =
    commandsOf st (Some (SStr udid)) ++
    [newCommand uuid udid (JStr "DeviceInformation")
       (JObj [("Queries",
               if jsTruthy queries then queries else defaultQueries)]) now].
Proof.
  simpl. split; [reflexivity|].
  unfold pushCommand. rewrite commandsOf_insert. now rewrite decide_True.
Qed.

(** C8 is violated by the route [/api/devices/:udid/lock] (and in the same
    way by [/api/devices/:udid/query]): for the identifier [ghost], which
    has no registry record, the request succeeds and a [pending]
    DeviceLock command is queued. *)
Theorem postLock_ghost :
  let result :=
    handle (PostLock "ghost" (JStr "Lost") JUndefined Sample.uuid1 1) initial in
  devices initial !! Some (SStr "ghost") = None /\
  code (snd result) = 200%nat /\
  commandsOf (fst result) (Some (SStr "ghost")) =
    [newCommand Sample.uuid1 "ghost" (JStr "DeviceLock")
       (JObj [("Message", JStr "Lost"); ("PhoneNumber", JUndefined)]) 1].
Proof. vm_compute. repeat split. Qed.

(** C10: in every reachable state, a device record that carries a push
    token or a push magic belongs to a device whose enrollment has
    completed: its state is not [pending] and its enrolled-at is set.  So
    a record in [pending] state carries neither. *)
Theorem push_credentials_only_once_enrolled (st : state) (k : key)
    (d : MDMDevice.t) :
  reachable st ->
  devices st !! k = Some d ->
  (MDMDevice.pushToken d <> None \/ MDMDevice.pushMagic d <> None ->
   enrollmentCompleted d) /\
  (MDMDevice.enrollmentStatus d = Pending ->
   MDMDevice.pushToken d = None /\ MDMDevice.pushMagic d = None).
Proof.
  intros Hst Hd. pose proof (pushInvariant_reachable st Hst k d Hd) as Hinv.
  split; [exact Hinv|].
  intros Hp.
  destruct (MDMDevice.pushToken d) as [t|] eqn:Ht.
  { destruct Hinv as [Hc _]; [left; discriminate|]. contradiction. }
  destruct (MDMDevice.pushMagic d) as [m|] eqn:Hm.
  { destruct Hinv as [Hc _]; [right; discriminate|]. contradiction. }
  split; reflexivity.
Qed.

(** An instance: the record of A1 once it is enrolled. *)
Lemma push_credentials_only_once_enrolled_witness :
  exists d, devices Sample.enrolled !! Sample.A1 = Some d /\
    MDMDevice.pushToken d = Some (SStr "tok123") /\ enrollmentCompleted d.
Proof.
  pose (d := MDMDevice.mk Sample.uuid0 Sample.A1 (SStr "") (SStr "Phone")
               (SStr "") (SStr "") (SStr "") (SStr "") (SStr "") false
               Enrolled (Some 2) (Some 2) (Some (SStr "tok123"))
               (Some (SStr "magic"))).
  assert (Hd : devices Sample.enrolled !! Sample.A1 = Some d)
    by (vm_compute; reflexivity).
  exists d. split; [exact Hd|]. split; [reflexivity|].
  apply (push_credentials_only_once_enrolled Sample.enrolled Sample.A1 d).
  - unfold Sample.enrolled. apply reachable_run. constructor.
  - exact Hd.
  - left. discriminate.
Defined.

(* ===================================================================== *)
(** * More properties of the codec *)
(* ===================================================================== *)

Lemma suffixOf_refl (s : string) : suffixOf s s.
Proof. now exists "". Qed.

Lemma suffixOf_cons (c : ascii) (s' s : string) :
  suffixOf s' s -> suffixOf s' (String c s).
Proof. intros [p ->]. now exists (String c p). Qed.

Lemma suffixOf_trans (a b c : string) :
  suffixOf a b -> suffixOf b c -> suffixOf a c.
Proof.
  intros [p ->] [q ->]. exists (q +:+ p). now rewrite append_assoc.
Qed.

Lemma strip_prefix_suffixOf (l s s' : string) :
  Str.strip_prefix l s = Some s' -> s = l +:+ s'.
Proof.
  revert s; induction l as [|a l IH]; intros s H.
  - now injection H as ->.
  - destruct s as [|b s]; [discriminate|]. simpl in H.
    destruct (Ascii.eqb_spec b a) as [->|]; [|discriminate].
    rewrite append_cons. f_equal. now apply IH.
Qed.

Lemma occurs_suffixOf (l s' s : string) :
  suffixOf s' s -> occurs l s' = true -> occurs l s = true.
Proof.
  intros [p ->] H. induction p as [|c p IH]; [exact H|].
  rewrite append_cons. simpl. rewrite IH. now destruct (Str.strip_prefix _ _).
Qed.

Lemma occurs_here (l s s' : string) :
  Str.strip_prefix l s = Some s' -> occurs l s = true.
Proof. intros H. destruct s; simpl; now rewrite H. Qed.

Section Suffixes.
Context {A : Type}.
Implicit Types (k : @cont A) (cs : captures).

Lemma repGreedy_suffix (cls : ascii -> bool) (min : nat) k (s : string) cs a :
  repGreedy cls min k s cs = Some a ->
  exists s' cs', suffixOf s' s /\ k s' cs' = Some a.
Proof.
  revert min; induction s as [|c s IH]; intros min H.
  - simpl in H. destruct min; [|discriminate].
    exists "", cs. split; [apply suffixOf_refl|exact H].
  - simpl in H.
    assert (Hstop : match min with O => k (String c s) cs | S _ => None end
                    = Some a ->
                    exists s' cs', suffixOf s' (String c s) /\ k s' cs' = Some a).
    { destruct min; [|discriminate]. intros Hk.
      exists (String c s), cs. split; [apply suffixOf_refl|exact Hk]. }
    destruct (cls c); [|now apply Hstop].
    destruct (repGreedy cls (Nat.pred min) k s cs) as [a'|] eqn:Hrec;
      [|now apply Hstop].
    injection H as ->. destruct (IH _ Hrec) as (s' & cs' & Hs' & Hk).
    exists s', cs'. split; [now apply suffixOf_cons|exact Hk].
Qed.

Lemma repLazy_suffix (cls : ascii -> bool) (min : nat) k (s : string) cs a :
  repLazy cls min k s cs = Some a ->
  exists s' cs', suffixOf s' s /\ k s' cs' = Some a.
Proof.
  revert min; induction s as [|c s IH]; intros min H.
  - simpl in H. destruct min; [|discriminate].
    destruct (k "" cs) eqn:Hk; [|discriminate]. injection H as ->.
    exists "", cs. split; [apply suffixOf_refl|exact Hk].
  - simpl in H.
    assert (Hmore : (if cls c then repLazy cls (Nat.pred min) k s cs else None)
                    = Some a ->
                    exists s' cs', suffixOf s' (String c s) /\ k s' cs' = Some a).
    { destruct (cls c); [|discriminate]. intros Hrec.
      destruct (IH _ Hrec) as (s' & cs' & Hs' & Hk).
      exists s', cs'. split; [now apply suffixOf_cons|exact Hk]. }
    destruct min; [|now apply Hmore].
    destruct (k (String c s) cs) eqn:Hk; [|now apply Hmore].
    injection H as ->.
    exists (String c s), cs. split; [apply suffixOf_refl|exact Hk].
Qed.
End Suffixes.

(** A successful match continues at a position of the same text. *)
Lemma rx_suffix (r : regex) :
  forall {A : Type} (k : @cont A) (s : string) (cs : captures) (a : A),
    rx r k s cs = Some a ->
    exists s' cs', suffixOf s' s /\ k s' cs' = Some a.
Proof.
  induction r as [l|greedy min cls|r1 IH1 r2 IH2|r1 IH1 r2 IH2|i r IH];
    intros A k s cs a H.
  - simpl in H. destruct (Str.strip_prefix l s) as [s'|] eqn:Hl; [|discriminate].
    exists s', cs. split; [|exact H].
    exists l. now apply strip_prefix_suffixOf.
  - simpl in H. destruct greedy;
      [now apply repGreedy_suffix in H|now apply repLazy_suffix in H].
  - simpl in H. destruct (IH1 _ _ _ _ _ H) as (s1 & cs1 & Hs1 & H1).
    destruct (IH2 _ _ _ _ _ H1) as (s2 & cs2 & Hs2 & H2).
    exists s2, cs2. split; [now apply (suffixOf_trans _ s1)|exact H2].
  - simpl in H. destruct (rx r1 k s cs) as [a1|] eqn:H1.
    + injection H as ->. now apply IH1 in H1.
    + now apply IH2 in H.
  - simpl in H. destruct (IH _ _ _ _ _ H) as (s' & cs' & Hs' & Hk).
    eexists s', _. split; [exact Hs'|exact Hk].
Qed.

Lemma rx_Lit_eq {A : Type} (l : string) (k : @cont A) (s : string)
    (cs : captures) :
  rx (Lit l) k s cs =
  match Str.strip_prefix l s with
  | Some s' => k s' cs
  | None => None
  end.
Proof. reflexivity. Qed.

Lemma rx_dictRegex_occurs (s : string) (m : captures * string) :
  rx dictRegex accept s [] = Some m ->
  occurs "<dict>" s = true /\ occurs "</dict>" s = true.
Proof.
  unfold dictRegex. rewrite rx_Cat, rx_Lit_eq. intros H.
  destruct (Str.strip_prefix "<dict>" s) as [s1|] eqn:H1; [|discriminate].
  split; [now apply occurs_here in H1|].
  rewrite rx_Cat in H.
  apply rx_suffix in H as (s2 & cs2 & Hs2 & H).
  rewrite rx_Lit_eq in H.
  destruct (Str.strip_prefix "</dict>" s2) as [s3|] eqn:H3; [|discriminate].
  apply occurs_here in H3.
  apply (occurs_suffixOf _ s2); [|exact H3].
  apply (suffixOf_trans _ s1); [exact Hs2|].
  exists "<dict>". now apply strip_prefix_suffixOf.
Qed.

Lemma exec_dictRegex_occurs (s : string) (m : captures * string) :
  exec dictRegex s = Some m ->
  occurs "<dict>" s = true /\ occurs "</dict>" s = true.
Proof.
  induction s as [|c s IH]; intros H.
  - discriminate.
  - rewrite exec_cons in H.
    destruct (rx dictRegex accept (String c s) []) as [m'|] eqn:Hm.
    + now apply rx_dictRegex_occurs in Hm.
    + destruct (IH H) as [Ho Hc]. split.
      * apply (occurs_suffixOf _ s); [|exact Ho].
        apply suffixOf_cons, suffixOf_refl.
      * apply (occurs_suffixOf _ s); [|exact Hc].
        apply suffixOf_cons, suffixOf_refl.
Qed.

(** X1: [parsePlist] returns the empty object for every text in which
    [<dict>] or [</dict>] does not occur. *)
Theorem parsePlist_no_dict (xml : string) :
  occurs "<dict>" xml = false \/ occurs "</dict>" xml = false ->
  parsePlist xml = ∅.
Proof.
  intros H. unfold parsePlist.
  destruct (exec dictRegex xml) as [[cs rest]|] eqn:He; [|reflexivity].
  apply exec_dictRegex_occurs in He as [Ho Hc].
  destruct H as [H|H]; congruence.
Qed.

Lemma parsePlist_no_dict_witness :
  parsePlist "<plist version=1><string>Authenticate</string></plist>" = ∅.
Proof.
  apply parsePlist_no_dict. left. vm_compute. reflexivity.
Defined.

Lemma replaceAll_app (c : ascii) (by_ a b : string) :
  Str.replaceAll c by_ (a +:+ b)
  = Str.replaceAll c by_ a +:+ Str.replaceAll c by_ b.
Proof.
  induction a as [|x a IH]; [reflexivity|].
  rewrite append_cons. simpl. rewrite IH.
  destruct (Ascii.eqb x c); [now rewrite append_assoc|reflexivity].
Qed.

Lemma replaceAll_cons (c x : ascii) (by_ s : string) :
  Str.replaceAll c by_ (String x s)
  = (if Ascii.eqb x c then by_ else String x "") +:+ Str.replaceAll c by_ s.
Proof. simpl. now destruct (Ascii.eqb x c). Qed.

Lemma escape_cons (c : ascii) (s : string) :
  escape (String c s) = escapeChar c +:+ escape s.
Proof.
  unfold escape, escapeChar. rewrite (replaceAll_cons "&").
  destruct (Ascii.eqb_spec c "&") as [->|Hamp].
  - now rewrite !replaceAll_app.
  - rewrite !replaceAll_app. f_equal.
    destruct (Ascii.eqb_spec c "<") as [->|Hlt]; [reflexivity|].
    rewrite (replaceAll_cons "<").
    destruct (Ascii.eqb_spec c "<") as [|_]; [contradiction|].
    rewrite append_empty_r, (replaceAll_cons ">").
    now destruct (Ascii.eqb_spec c ">").
Qed.

Lemma all_escapeChar (p : ascii -> bool) (c : ascii) :
  Str.all p "&amp;" = true -> Str.all p "&lt;" = true ->
  Str.all p "&gt;" = true ->
  (Ascii.eqb c "<" = false -> Ascii.eqb c ">" = false -> p c = true) ->
  Str.all p (escapeChar c) = true.
Proof.
  intros Ha Hl Hg Hc. unfold escapeChar.
  destruct (Ascii.eqb c "&") eqn:E1; [exact Ha|].
  destruct (Ascii.eqb c "<") eqn:E2; [exact Hl|].
  destruct (Ascii.eqb c ">") eqn:E3; [exact Hg|].
  cbn [Str.all]. now rewrite Hc.
Qed.

Lemma escape_markup_free (s : string) :
  Str.all notLt (escape s) = true /\ Str.all notGt (escape s) = true.
Proof.
  induction s as [|c s [IHl IHg]]; [split; reflexivity|].
  rewrite escape_cons, !all_app, IHl, IHg, !andb_true_r. split.
  - apply all_escapeChar; try reflexivity.
    intros H _. unfold notLt. now rewrite H.
  - apply all_escapeChar; try reflexivity.
    intros _ H. unfold notGt. now rewrite H.
Qed.

Lemma all_take (p : ascii -> bool) (n : nat) (s : string) :
  Str.all p s = true -> Str.all p (Str.take n s) = true.
Proof.
  revert n; induction s as [|c s IH]; intros [|n] H; try reflexivity.
  simpl in *. apply andb_true_iff in H as [Hc Hs]. now rewrite Hc, IH.
Qed.

Lemma all_drop (p : ascii -> bool) (n : nat) (s : string) :
  Str.all p s = true -> Str.all p (Str.drop n s) = true.
Proof.
  revert n; induction s as [|c s IH]; intros [|n] H; try assumption.
  simpl in *. apply andb_true_iff in H as [_ Hs]. now apply IH.
Qed.

Lemma all_repeat (p : ascii -> bool) (c : ascii) (n : nat) :
  p c = true -> Str.all p (Str.repeat c n) = true.
Proof. intros Hc. induction n as [|n IH]; [reflexivity|]. simpl. now rewrite Hc. Qed.

Section NumberText.
Context (p : ascii -> bool).
Hypothesis p_digit : forall c, isDigit c = true -> p c = true.
Hypothesis p_dot : p "."%char = true.
Hypothesis p_e : p "e"%char = true.
Hypothesis p_plus : p "+"%char = true.
Hypothesis p_minus : p "-"%char = true.
Hypothesis p_infinity : Str.all p "Infinity" = true.

Lemma all_digits (n : Z) : 0 <= n -> Str.all p (digits n) = true.
Proof.
  intros Hn. destruct (digits_spec n Hn) as (Hall & _).
  exact (all_impl _ _ _ p_digit Hall).
Qed.

Lemma all_exponential_any (ds : string) (n : Z) :
  Str.all p ds = true -> Str.all p (exponential ds n) = true.
Proof.
  intros Hds. unfold exponential. rewrite !all_app.
  rewrite all_digits by lia.
  assert (Hm : Str.all p match ds with
                         | String d (String _ _ as r) => String d ("." +:+ r)
                         | _ => ds
                         end = true).
  { destruct ds as [|d [|c r]]; try exact Hds.
    cbn [Str.all] in *. apply andb_true_iff in Hds as [Hd Hr].
    rewrite Hd. rewrite append_cons, append_nil. cbn [Str.all].
    now rewrite p_dot, Hr. }
  rewrite Hm. cbn [Str.all]. rewrite p_e.
  destruct (n - 1 <? 0); cbn [Str.all]; now rewrite ?p_plus, ?p_minus.
Qed.

Lemma all_trimZerosEnd (s : string) :
  Str.all p s = true -> Str.all p (trimZerosEnd s) = true.
Proof.
  induction s as [|c s IH]; [trivial|]. cbn [Str.all].
  intros [Hc Hs]%andb_true_iff. rewrite trimZerosEnd_cons.
  destruct (Str.is_empty (trimZerosEnd s) && Ascii.eqb c "0"); [reflexivity|].
  cbn [Str.all]. now rewrite Hc, IH.
Qed.

Lemma all_toStringUnsigned (n : number) :
  isNegative n = false -> Str.all p (toStringUnsigned n) = true.
Proof.
  destruct n as [z|m e|b]; cbn [isNegative toStringUnsigned].
  - intros Hz%Z.ltb_ge. destruct (z <? 10 ^ 21); [now apply all_digits|].
    apply all_exponential_any, all_trimZerosEnd. now apply all_digits.
  - intros Hm%Z.ltb_ge. pose proof (all_digits m Hm) as Hds. cbv zeta.
    destruct (_ && _).
    + rewrite !all_app, all_take, all_drop by exact Hds.
      cbn [Str.all]. now rewrite p_dot.
    + destruct (_ && _).
      * rewrite !all_app, Hds, all_repeat by now apply p_digit.
        cbn [Str.all]. rewrite p_dot. now rewrite (p_digit "0" eq_refl).
      * now apply all_exponential_any.
  - intros _. exact p_infinity.
Qed.

Lemma isNegative_negate (n : number) :
  isNegative n = true -> isNegative (negate n) = false.
Proof.
  destruct n as [z|m e|b]; cbn [isNegative negate].
  - intros H%Z.ltb_lt. apply Z.ltb_ge. lia.
  - intros H%Z.ltb_lt. apply Z.ltb_ge. lia.
  - now intros ->.
Qed.

Lemma all_toString (n : number) : Str.all p (toString n) = true.
Proof.
  unfold toString. destruct (isNegative n) eqn:Hn.
  - rewrite append_cons, append_nil. cbn [Str.all]. rewrite p_minus.
    now apply all_toStringUnsigned, isNegative_negate.
  - now apply all_toStringUnsigned.
Qed.
End NumberText.

Lemma toString_notLt (n : number) : Str.all notLt (toString n) = true.
Proof.
  apply all_toString; try reflexivity. apply isDigit_notLt.
Qed.

Lemma wireOk_wireOf (v : scalar) : wireOk (wireOf v).
Proof.
  destruct v as [s|n|b]; cbn [wireOf wireOk].
  - split; [now left|apply escape_markup_free].
  - split; [destruct (isInteger n); auto|apply toString_notLt].
  - exact I.
Qed.

Lemma foldl_store_decoded (m : list (string * scalar))
    (acc : gmap string scalar) :
  "__proto__" ∉ fst <$> m ->
  foldl store acc (wireEntries m)
  = foldl (fun acc kv => <[fst kv := snd kv]> acc) acc
      (map (fun kv => (fst kv, decodeLeaf (snd kv))) m).
Proof.
  revert acc; induction m as [|[k v] m IH]; intros acc Hp; [reflexivity|].
  cbn [fmap list_fmap fst] in Hp. apply not_elem_of_cons in Hp as [Hk Hp].
  cbn [wireEntries map foldl]. unfold store at 2. cbn [fst snd].
  rewrite assign_insert by congruence.
  replace (wireDecode (wireOf v)) with (decodeLeaf v) by now destruct v.
  now apply IH.
Qed.

Lemma fst_decoded (m : list (string * scalar)) :
  fst <$> map (fun kv => (fst kv, decodeLeaf (snd kv))) m = fst <$> m.
Proof.
  induction m as [|[k v] m IH]; [reflexivity|].
  cbn [map fmap list_fmap fst] in *. now rewrite IH.
Qed.

(** X2: what [parsePlist] reads in the plist that [toPlist] writes for an
    object of strings, numbers and booleans, when the keys are distinct,
    not empty and without [<], and none is [__proto__] (assigning it sets
    no property of the result): the same keys, a boolean as it was, a
    number as the number its decimal text reads as, and a string escaped,
    or as a number when the escaped text reads as one. *)
Theorem parsePlist_toPlist_leaves (m : list (string * scalar)) :
  NoDup (fst <$> m) ->
  Forall (fun kv => wireKey (fst kv) = true) m ->
  "__proto__" ∉ fst <$> m ->
  parsePlist (toPlist (encodeObject m))
  = list_to_map (map (fun kv => (fst kv, decodeLeaf (snd kv))) m).
Proof.
  intros Hnd Hm Hp. rewrite parsePlist_toPlist_entries.
  - rewrite foldl_store_decoded by exact Hp.
    rewrite foldl_insert_list_to_map.
    + now rewrite (right_id_L ∅ (∪)).
    + now rewrite fst_decoded.
  - unfold wireEntries. rewrite Forall_map.
    revert Hm. apply Forall_impl. intros [k v] Hk. cbn [fst snd] in *.
    split; [now apply keyOk_wireKey|apply wireOk_wireOf].
Qed.

Lemma parsePlist_toPlist_leaves_witness :
  parsePlist (toPlist (encodeObject [("Message", SStr "Q&A <now>");
                                     ("Pin", SStr "0042");
                                     ("Ratio", SNum (NFrac 15 1))]))
  = list_to_map [("Message", SStr "Q&amp;A &lt;now&gt;");
                 ("Pin", SNum (NInt 42)); ("Ratio", SNum (NFrac 15 1))].
Proof.
  rewrite (parsePlist_toPlist_leaves
             [("Message", SStr "Q&A <now>"); ("Pin", SStr "0042");
              ("Ratio", SNum (NFrac 15 1))]).
  - vm_compute. reflexivity.
  - refine (bool_decide_unpack _ _). vm_compute. exact I.
  - repeat constructor.
  - refine (bool_decide_unpack _ _). vm_compute. exact I.
Defined.

Lemma escape_nonempty (c : ascii) (s : string) : escape (String c s) <> "".
Proof.
  rewrite escape_cons. unfold escapeChar.
  repeat (destruct (Ascii.eqb c _)); discriminate.
Qed.

Lemma escapeChar_first (c : ascii) :
  exists r, escapeChar c = String (if Ascii.eqb c "<" || Ascii.eqb c ">"
                                   then "&"%char else c) r.
Proof.
  unfold escapeChar. destruct (Ascii.eqb_spec c "&") as [->|_].
  - eexists. reflexivity.
  - destruct (Ascii.eqb c "<"); [eexists; reflexivity|].
    destruct (Ascii.eqb c ">"); eexists; reflexivity.
Qed.

(** X3: the text [toPlist] writes for a string has no [<] and no [>] in
    it, whatever the string: a value cannot close its element or open
    another. *)
Theorem escape_no_markup (s : string) :
  Str.all (fun c => negb (Ascii.eqb c "<") && negb (Ascii.eqb c ">"))
    (escape s) = true.
Proof.
  destruct (escape_markup_free s) as [Hl Hg].
  induction (escape s) as [|c e IH]; [reflexivity|].
  cbn [Str.all] in *. apply andb_true_iff in Hl as [Hl1 Hl2].
  apply andb_true_iff in Hg as [Hg1 Hg2].
  rewrite (IH Hl2 Hg2), andb_true_r.
  unfold notLt in Hl1. unfold notGt in Hg1. now rewrite Hl1, Hg1.
Qed.

(** X4: the escaping of [&], [<] and [>] done by [toPlist] loses
    nothing: two strings with the same escaped text are the same
    string. *)
Theorem escape_injective (s1 s2 : string) :
  escape s1 = escape s2 -> s1 = s2.
Proof.
  revert s2; induction s1 as [|c1 s1 IH]; intros [|c2 s2] H.
  - reflexivity.
  - symmetry in H. now apply escape_nonempty in H.
  - now apply escape_nonempty in H.
  - rewrite !escape_cons in H. unfold escapeChar in H.
    destruct (Ascii.eqb_spec c1 "&") as [->|N1];
      [|destruct (Ascii.eqb_spec c1 "<") as [->|L1];
        [|destruct (Ascii.eqb_spec c1 ">") as [->|G1]]];
      (destruct (Ascii.eqb_spec c2 "&") as [->|N2];
       [|destruct (Ascii.eqb_spec c2 "<") as [->|L2];
         [|destruct (Ascii.eqb_spec c2 ">") as [->|G2]]]);
      rewrite !append_cons, ?append_nil in H;
      injection H as H; subst;
      try discriminate; try contradiction;
      f_equal; now apply IH.
Qed.

Lemma escape_injective_witness : "Q&A" = "Q&A".
Proof. apply escape_injective. reflexivity. Defined.

(** X5: the [while] loop of [parsePlist] ends.  Every match of [keyRegex]
    leaves at least five characters fewer to search, and allowing the
    loop more iterations than the content has characters does not change
    its result. *)
Theorem parsePlist_loop_terminates (content : string) :
  (forall cs rest, exec keyRegex content = Some (cs, rest) ->
     (String.length rest + 5 <= String.length content)%nat) /\
  (forall fuel result, (String.length content < fuel)%nat ->
     parseLoop fuel content result
     = parseLoop (S (String.length content)) content result).
Proof.
  split.
  - intros cs rest H. exact (exec_keyRegex_after _ _ _ H).
  - intros fuel result H. apply parseLoop_fuel; lia.
Qed.

(* ===================================================================== *)
(** * More properties of the command queue and of the registry *)
(* ===================================================================== *)

Lemma forward_refl (s : CommandStatus) : forward s s.
Proof. now left. Qed.

Lemma forward_trans (a b c : CommandStatus) :
  forward a b -> forward b c -> forward a c.
Proof.
  unfold forward. intros [-> | [[-> ->] | ->]] [-> | [[Hb ->] | ->]]; auto;
    try discriminate.
Qed.

Lemma commandStep_refl (c : MDMCommand.t) : commandStep c c.
Proof. split; [now repeat split|apply forward_refl]. Qed.

Lemma commandStep_trans (a b c : MDMCommand.t) :
  commandStep a b -> commandStep b c -> commandStep a c.
Proof.
  intros [(A1 & A2 & A3 & A4 & A5 & A6) Ha] [(B1 & B2 & B3 & B4 & B5 & B6) Hb].
  split; [|now apply (forward_trans _ (MDMCommand.status b))].
  repeat split; congruence.
Qed.

Lemma queueStep_refl (q : list MDMCommand.t) : queueStep q q.
Proof. intros i c H. exists c. split; [exact H|apply commandStep_refl]. Qed.

Lemma queueStep_trans (a b c : list MDMCommand.t) :
  queueStep a b -> queueStep b c -> queueStep a c.
Proof.
  intros Hab Hbc i x Hx. destruct (Hab i x Hx) as (y & Hy & Hxy).
  destruct (Hbc i y Hy) as (z & Hz & Hyz).
  exists z. split; [exact Hz|now apply (commandStep_trans _ y)].
Qed.

Lemma queueStep_insert (q : list MDMCommand.t) (i : nat)
    (c c' : MDMCommand.t) :
  q !! i = Some c -> commandStep c c' -> queueStep q (<[i := c']> q).
Proof.
  intros Hi Hc j x Hj. destruct (decide (i = j)) as [->|Hne].
  - exists c'. rewrite list_lookup_insert_eq by (eapply lookup_lt_Some; eauto).
    split; [reflexivity|congruence].
  - exists x. rewrite list_lookup_insert_ne by exact Hne.
    split; [exact Hj|apply commandStep_refl].
Qed.

Lemma queueStep_app (q ext : list MDMCommand.t) : queueStep q (q ++ ext).
Proof.
  intros i c Hi. exists c. split; [|apply commandStep_refl].
  now apply lookup_app_l_Some.
Qed.

Lemma commandStep_sent (now : time) (c : MDMCommand.t) :
  MDMCommand.status c = CPending -> commandStep c (sent now c).
Proof.
  intros Hc. split; [now repeat split|]. right; left. now split.
Qed.

Lemma commandStep_completed (response : gmap string scalar) (now : time)
    (c : MDMCommand.t) :
  commandStep c (completed response now c).
Proof. split; [now repeat split|]. right; right. reflexivity. Qed.

Lemma getNextCommand_Some (st : state) (udid : key) (i : nat)
    (c : MDMCommand.t) :
  getNextCommand st udid = Some (i, c) ->
  commandsOf st udid !! i = Some c /\ MDMCommand.status c = CPending.
Proof.
  unfold getNextCommand. intros (Hi & Hc & _)%list_find_Some. now split.
Qed.

Lemma sendNext_Some (log : bool) (st : state) (udid : key) (now : time)
    (i : nat) (c : MDMCommand.t) :
  getNextCommand st udid = Some (i, c) ->
  sendNext log udid now st =
  (mkState (devices st)
     (<[udid := <[i := sent now c]> (commandsOf st udid)]> (commandQueue st)),
   if log && negb (stringifies (MDMCommand.commandType c))
   then mkResponse 500 NoBody
   else sendXml (toPlist (buildCommandRequest c))).
Proof. intros H. unfold sendNext. now rewrite H. Qed.

Lemma sendNext_None (log : bool) (st : state) (udid : key) (now : time) :
  getNextCommand st udid = None ->
  sendNext log udid now st = (st, sendXml (toPlist [])).
Proof. intros H. unfold sendNext. now rewrite H. Qed.

Lemma commandsOf_state (st : state) (k : key) :
  commandsOf st k = commandsOf (mkState (devices st) (commandQueue st)) k.
Proof. reflexivity. Qed.

Lemma queueStep_sendNext (log : bool) (st : state) (udid k : key)
    (now : time) :
  queueStep (commandsOf st k) (commandsOf (fst (sendNext log udid now st)) k).
Proof.
  destruct (getNextCommand st udid) as [[i c]|] eqn:Hn.
  - rewrite (sendNext_Some _ _ _ _ _ _ Hn). cbn [fst].
    rewrite commandsOf_insert. destruct (decide (udid = k)) as [->|Hne].
    + apply getNextCommand_Some in Hn as [Hi Hc].
      now apply (queueStep_insert _ _ c), commandStep_sent.
    + rewrite <- commandsOf_state. apply queueStep_refl.
  - rewrite (sendNext_None _ _ _ _ Hn). apply queueStep_refl.
Qed.

Lemma queueStep_processCommandResponse (st : state) (udid k : key)
    (response : gmap string scalar) (now : time) :
  queueStep (commandsOf st k)
    (commandsOf (fst (processCommandResponse udid response now st)) k).
Proof.
  destruct (list_find (fun cmd => Some (SStr (MDMCommand.id cmd))
                                  = response !! "CommandUUID")
              (commandsOf st udid)) as [[i c]|] eqn:Hf.
  - rewrite (processCommandResponse_found _ _ _ _ _ _ Hf).
    rewrite commandsOf_insert. destruct (decide (udid = k)) as [->|Hne].
    + apply list_find_Some in Hf as (Hi & _).
      apply (queueStep_insert _ _ c); [exact Hi|apply commandStep_completed].
    + rewrite <- commandsOf_state. apply queueStep_refl.
  - rewrite (processCommandResponse_not_found _ _ _ _ Hf). apply queueStep_refl.
Qed.

Lemma commandQueue_checkin (xml uuid : string) (now : time) (st : state) :
  commandQueue (fst (checkin xml uuid now st)) = commandQueue st.
Proof.
  unfold checkin, handleAuthenticate, handleTokenUpdate, handleCheckOut.
  repeat case_decide; repeat case_match; reflexivity.
Qed.

Lemma commandsOf_checkin (xml uuid : string) (now : time) (st : state)
    (k : key) :
  commandsOf (fst (checkin xml uuid now st)) k = commandsOf st k.
Proof. unfold commandsOf. now rewrite commandQueue_checkin. Qed.

Lemma queueStep_pushCommand (st : state) (udid : string) (k : key)
    (c : MDMCommand.t) :
  queueStep (commandsOf st k) (commandsOf (pushCommand udid c st) k).
Proof.
  unfold pushCommand. rewrite commandsOf_insert.
  destruct (decide (Some (SStr udid) = k)) as [<-|Hne].
  - apply queueStep_app.
  - rewrite <- commandsOf_state. apply queueStep_refl.
Qed.

Lemma queueStep_mdm (xml : string) (now : time) (st : state) (k : key) :
  queueStep (commandsOf st k) (commandsOf (fst (mdm xml now st)) k).
Proof.
  unfold mdm.
  destruct (devices st !! (parsePlist xml !! "UDID")) as [d|];
    [|apply queueStep_refl].
  repeat case_decide.
  - apply (queueStep_sendNext true (mkState _ (commandQueue st))).
  - resolved; cbn [fst].
    + eapply queueStep_trans; [|apply queueStep_sendNext].
      apply (queueStep_processCommandResponse (mkState _ (commandQueue st))).
    + apply (queueStep_processCommandResponse (mkState _ (commandQueue st))).
  - apply queueStep_refl.
Qed.

(** Whatever the request, every queue goes forward. *)
Lemma queueStep_handle (r : request) (st : state) (k : key) :
  queueStep (commandsOf st k) (commandsOf (fst (handle r st)) k).
Proof.
  destruct r as [xml uuid now|xml now|udid ct payload uuid now
                |udid queries uuid now|udid message phone uuid now]; simpl.
  - rewrite commandsOf_checkin. apply queueStep_refl.
  - apply queueStep_mdm.
  - unfold postCommands. case_match; [|apply queueStep_refl].
    apply queueStep_pushCommand.
  - apply queueStep_pushCommand.
  - apply queueStep_pushCommand.
Qed.

Lemma run_app (rs1 rs2 : list request) (st : state) :
  run (rs1 ++ rs2) st = run rs2 (run rs1 st).
Proof. unfold run. apply fold_left_app. Qed.

Lemma run_cons (r : request) (rs : list request) (st : state) :
  run (r :: rs) st = run rs (fst (handle r st)).
Proof. reflexivity. Qed.

Lemma queueStep_run (rs : list request) (st : state) (k : key) :
  queueStep (commandsOf st k) (commandsOf (run rs st) k).
Proof.
  revert st; induction rs as [|r rs IH]; intros st.
  - apply queueStep_refl.
  - rewrite run_cons. eapply queueStep_trans; [apply queueStep_handle|apply IH].
Qed.

(** X6: whatever requests follow, a queued command keeps its position in
    the queue of its device, its identifier, device, type, payload,
    creation time and absent error message, and its status only moves
    forward: it stays, goes from pending to sent, or becomes completed. *)
Theorem queue_goes_forward (rs : list request) (st : state) (k : key)
    (i : nat) (c : MDMCommand.t) :
  commandsOf st k !! i = Some c ->
  exists c', commandsOf (run rs st) k !! i = Some c' /\
    sameCommand c c' /\
    forward (MDMCommand.status c) (MDMCommand.status c').
Proof.
  intros Hi. destruct (queueStep_run rs st k i c Hi) as (c' & Hc' & Hsame & Hf).
  exists c'. auto.
Qed.

Lemma queue_goes_forward_witness :
  exists c', commandsOf Sample.polledTwice Sample.A1 !! 0%nat = Some c' /\
    MDMCommand.id c' = Sample.id1.
Proof.
  pose (c := newCommand Sample.uuid1 "A1" (JStr "Cmd1") JUndefined 3).
  destruct (queue_goes_forward [PutMdm Sample.idle 5; PutMdm Sample.idle 6]
              Sample.queued Sample.A1 0%nat c)
    as (c' & Hc' & (Hid & _) & _).
  - vm_compute. reflexivity.
  - exists c'. split; [exact Hc'|exact Hid].
Defined.

(** X7: a command that is no longer pending is never selected for
    delivery again, whatever requests follow. *)
Theorem delivered_at_most_once (rs : list request) (st : state) (k : key)
    (i : nat) (c c' : MDMCommand.t) :
  commandsOf st k !! i = Some c ->
  MDMCommand.status c <> CPending ->
  getNextCommand (run rs st) k <> Some (i, c').
Proof.
  intros Hi Hc Hn. apply getNextCommand_Some in Hn as [Hi' Hc'].
  destruct (queueStep_run rs st k i c Hi) as (c'' & Hc'' & _ & Hf).
  assert (c'' = c') as -> by congruence.
  rewrite Hc' in Hf. destruct Hf as [Hf|[[Hf _]|Hf]]; congruence.
Qed.

Lemma delivered_at_most_once_witness :
  getNextCommand (run [PutMdm Sample.idle 6] Sample.polledOnce) Sample.A1
  <> Some (0%nat, newCommand Sample.uuid1 "A1" (JStr "Cmd1") JUndefined 3).
Proof.
  apply (delivered_at_most_once [PutMdm Sample.idle 6] Sample.polledOnce
           Sample.A1 0%nat
           (sent 5 (newCommand Sample.uuid1 "A1" (JStr "Cmd1") JUndefined 3))).
  - vm_compute. reflexivity.
  - discriminate.
Defined.

Lemma commandOk_sent (now : time) (c : MDMCommand.t) :
  commandOk c -> MDMCommand.status c = CPending -> commandOk (sent now c).
Proof.
  intros [He Hs] Hp. rewrite Hp in Hs. destruct Hs as (_ & Hc & Hr).
  split; [exact He|]. simpl. repeat split; [discriminate|exact Hc|exact Hr].
Qed.

Lemma commandOk_completed (response : gmap string scalar) (now : time)
    (c : MDMCommand.t) :
  commandOk c -> commandOk (completed response now c).
Proof.
  intros [He _]. split; [exact He|]. simpl. split; discriminate.
Qed.

Lemma commandOk_new (uuid udid : string) (ct payload : jsval) (now : time) :
  commandOk (newCommand uuid udid ct payload now).
Proof. split; [reflexivity|]. simpl. now repeat split. Qed.

Lemma queuesOk_insert (st : state) (ds : gmap key MDMDevice.t) (k : key)
    (q : list MDMCommand.t) :
  queuesOk st -> Forall commandOk q ->
  queuesOk (mkState ds (<[k := q]> (commandQueue st))).
Proof.
  intros Hst Hq k'. rewrite commandsOf_insert.
  destruct (decide (k = k')); [exact Hq|apply Hst].
Qed.

Lemma queuesOk_devices (st : state) (ds : gmap key MDMDevice.t) :
  queuesOk st -> queuesOk (mkState ds (commandQueue st)).
Proof. intros Hst k. apply Hst. Qed.

Lemma queuesOk_sendNext (log : bool) (st : state) (udid : key) (now : time) :
  queuesOk st -> queuesOk (fst (sendNext log udid now st)).
Proof.
  intros Hst. destruct (getNextCommand st udid) as [[i c]|] eqn:Hn.
  - rewrite (sendNext_Some _ _ _ _ _ _ Hn). cbn [fst].
    apply getNextCommand_Some in Hn as [Hi Hc].
    apply queuesOk_insert; [exact Hst|].
    apply Forall_insert; [apply Hst|].
    apply commandOk_sent; [|exact Hc].
    eapply Forall_lookup_1; [apply (Hst udid)|exact Hi].
  - now rewrite (sendNext_None _ _ _ _ Hn).
Qed.

Lemma queuesOk_processCommandResponse (st : state) (udid : key)
    (response : gmap string scalar) (now : time) :
  queuesOk st -> queuesOk (fst (processCommandResponse udid response now st)).
Proof.
  intros Hst.
  destruct (list_find (fun cmd => Some (SStr (MDMCommand.id cmd))
                                  = response !! "CommandUUID")
              (commandsOf st udid)) as [[i c]|] eqn:Hf.
  - rewrite (processCommandResponse_found _ _ _ _ _ _ Hf).
    apply list_find_Some in Hf as (Hi & _).
    apply queuesOk_insert; [exact Hst|].
    apply Forall_insert; [apply Hst|].
    apply commandOk_completed.
    eapply Forall_lookup_1; [apply (Hst udid)|exact Hi].
  - now rewrite (processCommandResponse_not_found _ _ _ _ Hf).
Qed.

Lemma queuesOk_pushCommand (st : state) (udid : string) (c : MDMCommand.t) :
  queuesOk st -> commandOk c -> queuesOk (pushCommand udid c st).
Proof.
  intros Hst Hc. apply queuesOk_insert; [exact Hst|].
  apply Forall_app. split; [apply Hst|]. now constructor.
Qed.

Lemma queuesOk_handle (r : request) (st : state) :
  queuesOk st -> queuesOk (fst (handle r st)).
Proof.
  intros Hst.
  destruct r as [xml uuid now|xml now|udid ct payload uuid now
                |udid queries uuid now|udid message phone uuid now]; simpl.
  - intros k. rewrite commandsOf_checkin. apply Hst.
  - unfold mdm.
    destruct (devices st !! (parsePlist xml !! "UDID")) as [d|]; [|exact Hst].
    repeat case_decide.
    + now apply queuesOk_sendNext, queuesOk_devices.
    + resolved; cbn [fst].
      * now apply queuesOk_sendNext, queuesOk_processCommandResponse,
          queuesOk_devices.
      * now apply queuesOk_processCommandResponse, queuesOk_devices.
    + now apply queuesOk_devices.
  - unfold postCommands. case_match; [|exact Hst].
    apply queuesOk_pushCommand; [exact Hst|apply commandOk_new].
  - apply queuesOk_pushCommand; [exact Hst|apply commandOk_new].
  - apply queuesOk_pushCommand; [exact Hst|apply commandOk_new].
Qed.

Lemma queuesOk_reachable (st : state) : reachable st -> queuesOk st.
Proof.
  induction 1 as [|st r _ IH].
  - intros k. constructor.
  - now apply queuesOk_handle.
Qed.

(** X8: in every state the server reaches the fields of a command agree
    with its status: a pending command has no sending time, completion
    time or response; a sent one has a sending time only; a completed one
    has a completion time and a response; no command is ever acknowledged
    or failed, and none carries an error message. *)
Theorem command_fields_agree (st : state) (k : key) (i : nat)
    (c : MDMCommand.t) :
  reachable st -> commandsOf st k !! i = Some c -> commandOk c.
Proof.
  intros Hst Hi. eapply Forall_lookup_1; [|exact Hi].
  now apply queuesOk_reachable.
Qed.

Lemma command_fields_agree_witness :
  commandOk (sent 5 (newCommand Sample.uuid1 "A1" (JStr "Cmd1") JUndefined 3)).
Proof.
  apply (command_fields_agree Sample.polledOnce Sample.A1 0%nat).
  - unfold Sample.polledOnce, Sample.queued, Sample.enrolled.
    repeat apply reachable_run. constructor.
  - vm_compute. reflexivity.
Defined.

(** ** Ownership of the queues *)

Lemma commandQueue_nonempty (st : state) (k : key) (i : nat)
    (c : MDMCommand.t) :
  commandsOf st k !! i = Some c ->
  commandQueue st !! k = Some (commandsOf st k).
Proof.
  unfold commandsOf. destruct (commandQueue st !! k); [reflexivity|].
  simpl. intros H. now apply lookup_nil_Some in H || discriminate H.
Qed.

Lemma queuesOwned_update (st : state) (ds : gmap key MDMDevice.t) (k : key)
    (i : nat) (c c' : MDMCommand.t) :
  queuesOwned st ->
  commandsOf st k !! i = Some c ->
  MDMCommand.deviceId c' = MDMCommand.deviceId c ->
  queuesOwned
    (mkState ds (<[k := <[i := c']> (commandsOf st k)]> (commandQueue st))).
Proof.
  intros Hst Hi Hd k' q. cbn [commandQueue]. rewrite lookup_insert.
  destruct (decide (k = k')) as [<-|Hne]; [|apply Hst].
  intros [= <-].
  destruct (Hst k _ (commandQueue_nonempty _ _ _ _ Hi)) as (udid & Hk & Hall).
  exists udid. split; [exact Hk|].
  apply Forall_insert; [exact Hall|].
  rewrite Hd. eapply Forall_lookup_1 in Hall; [exact Hall|exact Hi].
Qed.

Lemma queuesOwned_devices (st : state) (ds : gmap key MDMDevice.t) :
  queuesOwned st -> queuesOwned (mkState ds (commandQueue st)).
Proof. intros Hst k q. apply Hst. Qed.

Lemma queuesOwned_sendNext (log : bool) (st : state) (udid : key)
    (now : time) :
  queuesOwned st -> queuesOwned (fst (sendNext log udid now st)).
Proof.
  intros Hst. destruct (getNextCommand st udid) as [[i c]|] eqn:Hn.
  - rewrite (sendNext_Some _ _ _ _ _ _ Hn). cbn [fst].
    apply getNextCommand_Some in Hn as [Hi _].
    now apply (queuesOwned_update _ _ _ _ c).
  - now rewrite (sendNext_None _ _ _ _ Hn).
Qed.

Lemma queuesOwned_processCommandResponse (st : state) (udid : key)
    (response : gmap string scalar) (now : time) :
  queuesOwned st -> queuesOwned (fst (processCommandResponse udid response now st)).
Proof.
  intros Hst.
  destruct (list_find (fun cmd => Some (SStr (MDMCommand.id cmd))
                                  = response !! "CommandUUID")
              (commandsOf st udid)) as [[i c]|] eqn:Hf.
  - rewrite (processCommandResponse_found _ _ _ _ _ _ Hf).
    apply list_find_Some in Hf as (Hi & _).
    now apply (queuesOwned_update _ _ _ _ c).
  - now rewrite (processCommandResponse_not_found _ _ _ _ Hf).
Qed.

Lemma queuesOwned_pushCommand (st : state) (udid : string)
    (c : MDMCommand.t) :
  queuesOwned st -> MDMCommand.deviceId c = udid ->
  queuesOwned (pushCommand udid c st).
Proof.
  intros Hst Hc k q. unfold pushCommand. cbn [commandQueue].
  rewrite lookup_insert.
  destruct (decide (Some (SStr udid) = k)) as [<-|Hne]; [|apply Hst].
  intros [= <-]. exists udid. split; [reflexivity|].
  apply Forall_app. split; [|now constructor].
  unfold commandsOf.
  destruct (commandQueue st !! Some (SStr udid)) as [q|] eqn:Hq;
    [|constructor].
  destruct (Hst _ _ Hq) as (u & [= <-] & Hall). exact Hall.
Qed.

Lemma queuesOwned_handle (r : request) (st : state) :
  queuesOwned st -> queuesOwned (fst (handle r st)).
Proof.
  intros Hst.
  destruct r as [xml uuid now|xml now|udid ct payload uuid now
                |udid queries uuid now|udid message phone uuid now]; simpl.
  - intros k q. rewrite commandQueue_checkin. apply Hst.
  - unfold mdm.
    destruct (devices st !! (parsePlist xml !! "UDID")) as [d|]; [|exact Hst].
    repeat case_decide.
    + now apply queuesOwned_sendNext, queuesOwned_devices.
    + resolved; cbn [fst].
      * now apply queuesOwned_sendNext, queuesOwned_processCommandResponse,
          queuesOwned_devices.
      * now apply queuesOwned_processCommandResponse, queuesOwned_devices.
    + now apply queuesOwned_devices.
  - unfold postCommands. case_match; [|exact Hst].
    now apply queuesOwned_pushCommand.
  - now apply queuesOwned_pushCommand.
  - now apply queuesOwned_pushCommand.
Qed.

(** X9: in every state the server reaches, a command is in the queue of
    the identifier it was submitted for, and that identifier is a
    string. *)
Theorem commands_never_migrate (st : state) (k : key) (i : nat)
    (c : MDMCommand.t) :
  reachable st -> commandsOf st k !! i = Some c ->
  k = Some (SStr (MDMCommand.deviceId c)).
Proof.
  intros Hst Hi.
  assert (Hown : queuesOwned st).
  { clear Hi. induction Hst as [|st r _ IH].
    - intros k' q Hq. cbn in Hq. now rewrite lookup_empty in Hq.
    - now apply queuesOwned_handle. }
  destruct (Hown k _ (commandQueue_nonempty _ _ _ _ Hi)) as (udid & -> & Hall).
  eapply Forall_lookup_1 in Hall; [|exact Hi]. now rewrite Hall.
Qed.

Lemma commands_never_migrate_witness :
  Sample.A1 = Some (SStr "A1").
Proof.
  apply (commands_never_migrate Sample.polledOnce Sample.A1 1%nat
           (newCommand Sample.uuid2 "A1" (JStr "Cmd2") JUndefined 4)).
  - unfold Sample.polledOnce, Sample.queued, Sample.enrolled.
    repeat apply reachable_run. constructor.
  - vm_compute. reflexivity.
Defined.

(** ** The registry *)

Lemma checkin_devices (xml uuid : string) (now : time) (st : state) (k : key) :
  k <> parsePlist xml !! "UDID" ->
  devices (fst (checkin xml uuid now st)) !! k = devices st !! k.
Proof.
  intros Hk. unfold checkin, handleAuthenticate, handleTokenUpdate,
    handleCheckOut.
  repeat case_decide; repeat case_match; cbn [fst devices];
    try reflexivity; now rewrite lookup_insert_ne.
Qed.

(** X10: a check-in message changes no command queue, and no device
    record other than the one of the UDID it names. *)
Theorem checkin_frame (xml uuid : string) (now : time) (st : state) :
  let st' := fst (checkin xml uuid now st) in
  commandQueue st' = commandQueue st /\
  (forall k, k <> parsePlist xml !! "UDID" ->
     devices st' !! k = devices st !! k).
Proof.
  split; [apply commandQueue_checkin|].
  intros k Hk. now apply checkin_devices.
Qed.

Lemma devices_sendNext (log : bool) (st : state) (udid : key) (now : time) :
  devices (fst (sendNext log udid now st)) = devices st.
Proof. unfold sendNext. now repeat case_match. Qed.

Lemma devices_processCommandResponse (st : state) (udid : key)
    (response : gmap string scalar) (now : time) :
  devices (fst (processCommandResponse udid response now st)) = devices st.
Proof. unfold processCommandResponse. now repeat case_match. Qed.

Lemma commandsOf_sendNext_ne (log : bool) (st : state) (udid k : key)
    (now : time) :
  udid <> k -> commandsOf (fst (sendNext log udid now st)) k = commandsOf st k.
Proof.
  intros Hne. destruct (getNextCommand st udid) as [[i c]|] eqn:Hn.
  - rewrite (sendNext_Some _ _ _ _ _ _ Hn). cbn [fst].
    rewrite commandsOf_insert. now rewrite decide_False.
  - now rewrite (sendNext_None _ _ _ _ Hn).
Qed.

Lemma commandsOf_processCommandResponse_ne (st : state) (udid k : key)
    (response : gmap string scalar) (now : time) :
  udid <> k ->
  commandsOf (fst (processCommandResponse udid response now st)) k
  = commandsOf st k.
Proof.
  intros Hne. unfold processCommandResponse.
  destruct (list_find _ (commandsOf st udid)) as [[i c]|]; [|reflexivity].
  cbn [fst]. rewrite commandsOf_insert. now rewrite decide_False.
Qed.

Lemma mdm_devices (xml : string) (now : time) (st : state)
    (device : MDMDevice.t) :
  devices st !! (parsePlist xml !! "UDID") = Some device ->
  devices (fst (mdm xml now st))
  = <[parsePlist xml !! "UDID" := MDMDevice.set_lastCheckIn (Some now) device]>
      (devices st).
Proof.
  intros Hd. unfold mdm. rewrite Hd. repeat case_decide.
  - now rewrite devices_sendNext.
  - resolved; cbn [fst].
    + now rewrite devices_sendNext, devices_processCommandResponse.
    + now rewrite devices_processCommandResponse.
  - reflexivity.
Qed.

Lemma mdm_unknown (xml : string) (now : time) (st : state) :
  devices st !! (parsePlist xml !! "UDID") = None ->
  mdm xml now st = (st, mkResponse 401 NoBody).
Proof. intros Hd. unfold mdm. now rewrite Hd. Qed.

Lemma mdm_commandsOf_ne (xml : string) (now : time) (st : state) (k : key) :
  k <> parsePlist xml !! "UDID" ->
  commandsOf (fst (mdm xml now st)) k = commandsOf st k.
Proof.
  intros Hk. unfold mdm.
  destruct (devices st !! (parsePlist xml !! "UDID")) as [d|]; [|reflexivity].
  repeat case_decide.
  - now rewrite commandsOf_sendNext_ne.
  - resolved; cbn [fst].
    + rewrite commandsOf_sendNext_ne by congruence.
      now rewrite commandsOf_processCommandResponse_ne.
    + now rewrite commandsOf_processCommandResponse_ne.
  - reflexivity.
Qed.

(** X11: a request to the command endpoint leaves the records and the
    queues of the other devices as they were, changes nothing in the
    record of the reporting device but the time of its last check-in,
    and, from a device that is not registered, changes nothing at all and
    is answered with status 401. *)
Theorem mdm_frame (xml : string) (now : time) (st : state) :
  let udid := parsePlist xml !! "UDID" in
  let st' := fst (mdm xml now st) in
  (forall k, k <> udid ->
     devices st' !! k = devices st !! k /\
     commandsOf st' k = commandsOf st k) /\
  devices st' !! udid
  = MDMDevice.set_lastCheckIn (Some now) <$> devices st !! udid /\
  (devices st !! udid = None -> mdm xml now st = (st, mkResponse 401 NoBody)).
Proof.
  cbv zeta. split; [|split].
  - intros k Hk. split; [|now apply mdm_commandsOf_ne].
    destruct (devices st !! (parsePlist xml !! "UDID")) as [d|] eqn:Hd.
    + rewrite (mdm_devices _ _ _ _ Hd). now rewrite lookup_insert_ne.
    + now rewrite (mdm_unknown _ _ _ Hd).
  - destruct (devices st !! (parsePlist xml !! "UDID")) as [d|] eqn:Hd.
    + rewrite (mdm_devices _ _ _ _ Hd). now rewrite lookup_insert_eq.
    + rewrite (mdm_unknown _ _ _ Hd). cbn [fst]. now rewrite Hd.
  - apply mdm_unknown.
Qed.

Lemma checkin_keeps (xml uuid : string) (now : time) (st : state) (k : key) :
  is_Some (devices st !! k) ->
  is_Some (devices (fst (checkin xml uuid now st)) !! k).
Proof.
  intros Hk. destruct (decide (k = parsePlist xml !! "UDID")) as [->|Hne];
    [|now rewrite checkin_devices].
  unfold checkin, handleAuthenticate, handleTokenUpdate, handleCheckOut.
  repeat case_decide; repeat case_match; cbn [fst devices];
    rewrite ?lookup_insert_eq; eauto; try exact Hk.
  all: destruct Hk as [d Hk]; congruence.
Qed.

Lemma handle_keeps (r : request) (st : state) (k : key) :
  is_Some (devices st !! k) -> is_Some (devices (fst (handle r st)) !! k).
Proof.
  intros Hk.
  destruct r as [xml uuid now|xml now|udid ct payload uuid now
                |udid queries uuid now|udid message phone uuid now]; simpl;
    try exact Hk.
  - now apply checkin_keeps.
  - destruct (devices st !! (parsePlist xml !! "UDID")) as [d|] eqn:Hd.
    + rewrite (mdm_devices _ _ _ _ Hd), lookup_insert.
      case_decide; eauto.
    + now rewrite (mdm_unknown _ _ _ Hd).
  - unfold postCommands. now case_match.
Qed.

(** X12: no request removes a device record: a device that is registered
    stays registered, its check-out included. *)
Theorem devices_never_removed (rs : list request) (st : state) (k : key) :
  is_Some (devices st !! k) -> is_Some (devices (run rs st) !! k).
Proof.
  revert st; induction rs as [|r rs IH]; intros st Hk; [exact Hk|].
  rewrite run_cons. now apply IH, handle_keeps.
Qed.

Lemma devices_never_removed_witness :
  is_Some (devices Sample.polledTwice !! Sample.A1).
Proof.
  apply (devices_never_removed
           (Sample.enqueueTwo ++ [PutMdm Sample.idle 5; PutMdm Sample.idle 6])
           Sample.enrolled Sample.A1).
  vm_compute. eauto.
Defined.

Lemma recordsKeyed_insert (st : state) (k : key) (d : MDMDevice.t)
    (q : gmap key (list MDMCommand.t)) :
  recordsKeyed st -> MDMDevice.udid d = k ->
  recordsKeyed (mkState (<[k := d]> (devices st)) q).
Proof.
  intros Hst Hd k' d'. cbn [devices]. rewrite lookup_insert.
  case_decide; [intros [= <-]; congruence|apply Hst].
Qed.

Lemma recordsKeyed_devices (st st' : state) :
  devices st' = devices st -> recordsKeyed st -> recordsKeyed st'.
Proof. intros E Hst k d. rewrite E. apply Hst. Qed.

Lemma recordsKeyed_handle (r : request) (st : state) :
  recordsKeyed st -> recordsKeyed (fst (handle r st)).
Proof.
  intros Hst.
  destruct r as [xml uuid now|xml now|udid ct payload uuid now
                |udid queries uuid now|udid message phone uuid now]; simpl.
  - unfold checkin. repeat case_decide; try exact Hst.
    + now apply recordsKeyed_insert.
    + unfold handleTokenUpdate. case_match eqn:Hd; [|exact Hst].
      apply recordsKeyed_insert; [exact Hst|]. exact (Hst _ _ Hd).
    + unfold handleCheckOut. case_match eqn:Hd; [|exact Hst].
      apply recordsKeyed_insert; [exact Hst|]. exact (Hst _ _ Hd).
  - destruct (devices st !! (parsePlist xml !! "UDID")) as [d|] eqn:Hd.
    + intros k d'. rewrite (mdm_devices _ _ _ _ Hd), lookup_insert.
      case_decide; [intros [= <-]; subst; exact (Hst _ _ Hd)|apply Hst].
    + now rewrite (mdm_unknown _ _ _ Hd).
  - unfold postCommands. case_match; exact Hst.
  - exact Hst.
  - exact Hst.
Qed.

(** X13: in every state the server reaches, a device record is
    registered under the identifier it carries in [udid]. *)
Theorem record_udid_is_key (st : state) (k : key) (d : MDMDevice.t) :
  reachable st -> devices st !! k = Some d -> MDMDevice.udid d = k.
Proof.
  intros Hst. revert k d. induction Hst as [|st r _ IH].
  - intros k d H. cbn in H. now rewrite lookup_empty in H.
  - now apply recordsKeyed_handle.
Qed.

Lemma record_udid_is_key_witness :
  exists d, devices Sample.enrolled !! Sample.A1 = Some d /\
    MDMDevice.udid d = Sample.A1.
Proof.
  pose (d := MDMDevice.mk Sample.uuid0 Sample.A1 (SStr "") (SStr "Phone")
               (SStr "") (SStr "") (SStr "") (SStr "") (SStr "") false
               Enrolled (Some 2) (Some 2) (Some (SStr "tok123"))
               (Some (SStr "magic"))).
  assert (Hd : devices Sample.enrolled !! Sample.A1 = Some d)
    by (vm_compute; reflexivity).
  exists d. split; [exact Hd|].
  apply (record_udid_is_key Sample.enrolled Sample.A1 d).
  - unfold Sample.enrolled. apply reachable_run. constructor.
  - exact Hd.
Defined.

(** X14: the enrollment status of a registered device changes only by a
    check-in message that names its UDID: to pending by Authenticate, to
    enrolled by TokenUpdate, to unenrolled by CheckOut.  No request to
    the command endpoint or to the REST API changes it. *)
Theorem enrollment_transitions (r : request) (st : state) (k : key)
    (d d' : MDMDevice.t) :
  devices st !! k = Some d ->
  devices (fst (handle r st)) !! k = Some d' ->
  MDMDevice.enrollmentStatus d' = MDMDevice.enrollmentStatus d \/
  exists xml uuid now,
    r = PutCheckin xml uuid now /\ k = parsePlist xml !! "UDID" /\
    ((parsePlist xml !! "MessageType" = Some (SStr "Authenticate") /\
      MDMDevice.enrollmentStatus d' = Pending) \/
     (parsePlist xml !! "MessageType" = Some (SStr "TokenUpdate") /\
      MDMDevice.enrollmentStatus d' = Enrolled) \/
     (parsePlist xml !! "MessageType" = Some (SStr "CheckOut") /\
      MDMDevice.enrollmentStatus d' = Unenrolled)).
Proof.
  intros Hd Hd'.
  destruct r as [xml uuid now|xml now|udid ct payload uuid now
                |udid queries uuid now|udid message phone uuid now];
    simpl in Hd'.
  - destruct (decide (k = parsePlist xml !! "UDID")) as [->|Hne];
      [|rewrite checkin_devices in Hd' by exact Hne; left; congruence].
    unfold checkin in Hd'. repeat case_decide.
    + right. exists xml, uuid, now. split; [reflexivity|].
      split; [reflexivity|]. left. split; [assumption|].
      cbn in Hd'. rewrite lookup_insert_eq in Hd'. now injection Hd' as <-.
    + right. exists xml, uuid, now. split; [reflexivity|].
      split; [reflexivity|]. right; left. split; [assumption|].
      unfold handleTokenUpdate in Hd'. rewrite Hd in Hd'.
      cbn in Hd'. rewrite lookup_insert_eq in Hd'. now injection Hd' as <-.
    + right. exists xml, uuid, now. split; [reflexivity|].
      split; [reflexivity|]. right; right. split; [assumption|].
      unfold handleCheckOut in Hd'. rewrite Hd in Hd'.
      cbn in Hd'. rewrite lookup_insert_eq in Hd'. now injection Hd' as <-.
    + left. cbn in Hd'. congruence.
  - left. destruct (devices st !! (parsePlist xml !! "UDID")) as [d0|] eqn:Hd0.
    + rewrite (mdm_devices _ _ _ _ Hd0), lookup_insert in Hd'.
      case_decide; [subst; injection Hd' as <-; cbn; congruence|congruence].
    + rewrite (mdm_unknown _ _ _ Hd0) in Hd'. cbn in Hd'. congruence.
  - left. unfold postCommands in Hd'. case_match; cbn in Hd'; congruence.
  - left. cbn in Hd'. congruence.
  - left. cbn in Hd'. congruence.
Qed.

Lemma enrollment_transitions_witness :
  exists d d', devices initial !! Sample.A1 = None /\
    devices (run [PutCheckin Sample.authenticate Sample.uuid0 1] initial)
      !! Sample.A1 = Some d /\
    devices Sample.enrolled !! Sample.A1 = Some d' /\
    (MDMDevice.enrollmentStatus d' = MDMDevice.enrollmentStatus d \/
     MDMDevice.enrollmentStatus d' = Enrolled).
Proof.
  pose (st := run [PutCheckin Sample.authenticate Sample.uuid0 1] initial).
  destruct (devices st !! Sample.A1) as [d|] eqn:Hd;
    [|vm_compute in Hd; discriminate].
  destruct (devices Sample.enrolled !! Sample.A1) as [d'|] eqn:Hd';
    [|vm_compute in Hd'; discriminate].
  exists d, d'. split; [reflexivity|]. split; [exact Hd|].
  split; [reflexivity|].
  destruct (enrollment_transitions
              (PutCheckin Sample.tokenUpdate Sample.uuid0 2) st Sample.A1 d d'
              Hd Hd') as [H|(xml & uuid & now & _ & _ & [[_ H]|[[_ H]|[_ H]]])].
  - now left.
  - exfalso. clear -H Hd'. vm_compute in Hd'. injection Hd' as <-. discriminate.
  - now right.
  - exfalso. clear -H Hd'. vm_compute in Hd'. injection Hd' as <-. discriminate.
Defined.

(** ** Submission, then delivery *)

Lemma list_find_after (l : list MDMCommand.t) (c : MDMCommand.t) :
  Forall (fun c => MDMCommand.status c <> CPending) l ->
  MDMCommand.status c = CPending ->
  list_find (fun cmd => MDMCommand.status cmd = CPending) (l ++ [c])
  = Some (length l, c).
Proof.
  intros Hl Hc. apply list_find_Some. split; [|split].
  - now rewrite lookup_app_r, Nat.sub_diag by lia.
  - exact Hc.
  - intros j y Hj Hlt. rewrite lookup_app_l in Hj by exact Hlt.
    eapply Forall_lookup_1 in Hl; [exact Hl|exact Hj].
Qed.

Lemma insert_last (l : list MDMCommand.t) (c c' : MDMCommand.t) :
  <[length l := c']> (l ++ [c]) = l ++ [c'].
Proof.
  replace (length l) with (length l + 0)%nat by lia.
  now rewrite insert_app_r.
Qed.

(** X15: a command submitted for a registered device that has nothing
    pending is what the next idle poll of the device is answered with,
    and it is then the last of the queue, sent at the time of the poll;
    the enrollment status of the device plays no part.  The command type
    is one the log line of the poll can print. *)
Theorem enqueue_then_poll (udid : string) (commandType payload : jsval)
    (uuid : string) (t1 : time) (xml : string) (t2 : time) (st : state)
    (device : MDMDevice.t) :
  devices st !! Some (SStr udid) = Some device ->
  Forall (fun c => MDMCommand.status c <> CPending)
    (commandsOf st (Some (SStr udid))) ->
  stringifies commandType = true ->
  parsePlist xml !! "UDID" = Some (SStr udid) ->
  parsePlist xml !! "Status" = Some (SStr "Idle") ->
  let command := newCommand uuid udid commandType payload t1 in
  let st1 := fst (postCommands udid commandType payload uuid t1 st) in
  snd (mdm xml t2 st1) = sendXml (toPlist (buildCommandRequest command)) /\
  commandsOf (fst (mdm xml t2 st1)) (Some (SStr udid))
  = commandsOf st (Some (SStr udid)) ++ [sent t2 command].
Proof.
  intros Hd Hq Ht Hu Hs. cbv zeta.
  unfold postCommands. rewrite Hd. cbn [fst].
  unfold mdm, pushCommand. rewrite Hu. cbn [devices commandQueue]. rewrite Hd.
  rewrite decide_True by exact Hs.
  set (q := commandsOf st (Some (SStr udid))) in *.
  set (c := newCommand uuid udid commandType payload t1).
  match goal with |- context [sendNext _ ?k ?t ?s] =>
    assert (Hn : getNextCommand s k = Some (length q, c)) end.
  { unfold getNextCommand. rewrite commandsOf_insert, decide_True by reflexivity.
    now apply list_find_after. }
  rewrite (sendNext_Some _ _ _ _ _ _ Hn). cbn [fst snd devices commandQueue].
  split.
  { change (MDMCommand.commandType c) with commandType. now rewrite Ht. }
  rewrite !commandsOf_insert, !decide_True by reflexivity.
  apply insert_last.
Qed.

Lemma enqueue_then_poll_witness :
  snd (mdm Sample.idle 5
         (fst (postCommands "A1" (JStr "Cmd1") JUndefined Sample.uuid1 3
                 Sample.enrolled)))
  = sendXml (toPlist (buildCommandRequest
                        (newCommand Sample.uuid1 "A1" (JStr "Cmd1")
                           JUndefined 3))).
Proof.
  pose (d := MDMDevice.mk Sample.uuid0 Sample.A1 (SStr "") (SStr "Phone")
               (SStr "") (SStr "") (SStr "") (SStr "") (SStr "") false
               Enrolled (Some 2) (Some 2) (Some (SStr "tok123"))
               (Some (SStr "magic"))).
  apply (enqueue_then_poll "A1" (JStr "Cmd1") JUndefined Sample.uuid1 3
           Sample.idle 5 Sample.enrolled d).
  - vm_compute. reflexivity.
  - vm_compute. constructor.
  - reflexivity.
  - vm_compute. reflexivity.
  - vm_compute. reflexivity.
Defined.

(* ===================================================================== *)
(** * Health report *)
(* ===================================================================== *)

Section CountingLemmas.
Context {A : Type} (P : A -> Prop) `{forall x, Decision (P x)}.

Lemma countIf_app (l1 l2 : list A) :
  countIf P (l1 ++ l2) = (countIf P l1 + countIf P l2)%nat.
Proof. unfold countIf. now rewrite list.filter_app, length_app. Qed.

Lemma countIf_insert (l : list A) (i : nat) (x y : A) :
  l !! i = Some y ->
  (countIf P (<[i := x]> l) + countIf P [y] = countIf P l + countIf P [x])%nat.
Proof.
  revert i; induction l as [|z l IH]; intros [|i] Hi; try discriminate.
  - injection Hi as ->. cbn [insert list_insert].
    change (x :: l) with ([x] ++ l). change (y :: l) with ([y] ++ l).
    rewrite !countIf_app. lia.
  - specialize (IH i Hi).
    change (<[S i := x]> (z :: l)) with ([z] ++ <[i:=x]> l).
    change (z :: l) with ([z] ++ l).
    rewrite !countIf_app. lia.
Qed.

Lemma countAll_perm {K : Type} (l1 l2 : list (K * list A)) :
  l1 ≡ₚ l2 ->
  countIf P (concat (snd <$> l1)) = countIf P (concat (snd <$> l2)).
Proof.
  intros Hp. unfold countIf. now rewrite Hp.
Qed.

Lemma countAll_cons {K : Type} (k : K) (q : list A) (l : list (K * list A)) :
  countIf P (concat (snd <$> (k, q) :: l))
  = (countIf P q + countIf P (concat (snd <$> l)))%nat.
Proof.
  change (concat (snd <$> (k, q) :: l)) with (q ++ concat (snd <$> l)).
  apply countIf_app.
Qed.

Lemma countAll_insert {K : Type} `{Countable K} (m : gmap K (list A)) (k : K)
    (q : list A) :
  (countAll P (<[k := q]> m) + countIf P (default [] (m !! k))
   = countAll P m + countIf P q)%nat.
Proof.
  unfold countAll.
  assert (Hins : countIf P (concat (snd <$> map_to_list (<[k := q]> m)))
                 = (countIf P q
                    + countIf P (concat (snd <$> map_to_list (delete k m))))%nat).
  { rewrite <- insert_delete_eq.
    rewrite (countAll_perm _ _
               (map_to_list_insert (delete k m) k q (lookup_delete_eq m k))).
    apply countAll_cons. }
  rewrite Hins. destruct (m !! k) as [q0|] eqn:Hk; cbn [default].
  - rewrite <- (insert_delete_id m k q0 Hk) at 2.
    rewrite (countAll_perm _ _
               (map_to_list_insert (delete k m) k q0 (lookup_delete_eq m k))).
    rewrite countAll_cons. unfold id. lia.
  - rewrite (delete_id m k Hk). change (countIf P []) with 0%nat. lia.
Qed.
End CountingLemmas.

Lemma pendingCommands_countAll (st : state) :
  pendingCommands st = countAll isPending (commandQueue st).
Proof. reflexivity. Qed.

Lemma pendingCommands_insert (ds : gmap key MDMDevice.t) (st : state) (k : key)
    (q : list MDMCommand.t) :
  (pendingCommands (mkState ds (<[k := q]> (commandQueue st)))
   + countIf isPending (commandsOf st k)
   = pendingCommands st + countIf isPending q)%nat.
Proof.
  rewrite !pendingCommands_countAll. cbn [commandQueue].
  apply (countAll_insert isPending).
Qed.

Lemma countIf_one (c : MDMCommand.t) :
  countIf isPending [c]
  = if decide (MDMCommand.status c = CPending) then 1%nat else 0%nat.
Proof.
  unfold countIf. rewrite list.filter_cons, list.filter_nil.
  now destruct (decide (MDMCommand.status c = CPending)).
Qed.

Lemma pendingCommands_pushCommand (udid : string) (c : MDMCommand.t)
    (st : state) :
  MDMCommand.status c = CPending ->
  pendingCommands (pushCommand udid c st) = S (pendingCommands st).
Proof.
  intros Hc. unfold pushCommand.
  pose proof (pendingCommands_insert (devices st) st (Some (SStr udid))
                (commandsOf st (Some (SStr udid)) ++ [c])) as H.
  rewrite countIf_app, countIf_one, decide_True in H by exact Hc. lia.
Qed.

Lemma pendingCommands_sendNext (log : bool) (udid : key) (now : time)
    (st : state) :
  pendingCommands st
  = (pendingCommands (fst (sendNext log udid now st))
     + if getNextCommand st udid is Some _ then 1 else 0)%nat.
Proof.
  destruct (getNextCommand st udid) as [[i c]|] eqn:Hn.
  - rewrite (sendNext_Some _ _ _ _ _ _ Hn). cbn [fst].
    pose proof (pendingCommands_insert (devices st) st udid
                  (<[i := sent now c]> (commandsOf st udid))) as H.
    apply getNextCommand_Some in Hn as [Hi Hc].
    pose proof (countIf_insert isPending _ _ (sent now c) _ Hi) as H'.
    rewrite !countIf_one in H'. rewrite decide_True in H' by exact Hc.
    rewrite decide_False in H' by discriminate. lia.
  - rewrite (sendNext_None _ _ _ _ Hn). cbn [fst]. lia.
Qed.

Lemma pendingCommands_devices (ds : gmap key MDMDevice.t) (st : state) :
  pendingCommands (mkState ds (commandQueue st)) = pendingCommands st.
Proof. reflexivity. Qed.

Lemma pendingCommands_processCommandResponse (udid : key)
    (response : gmap string scalar) (now : time) (st : state) :
  (pendingCommands (fst (processCommandResponse udid response now st))
   <= pendingCommands st
   <= S (pendingCommands
           (fst (processCommandResponse udid response now st))))%nat.
Proof.
  unfold processCommandResponse.
  destruct (list_find _ (commandsOf st udid)) as [[i c]|] eqn:Hf;
    cbn [fst]; [|lia].
  apply list_find_Some in Hf as (Hi & _ & _).
  match goal with |- context [<[i := ?c']> _] =>
    pose proof (pendingCommands_insert (devices st) st udid
                  (<[i := c']> (commandsOf st udid))) as H;
    pose proof (countIf_insert isPending _ _ c' _ Hi) as H' end.
  rewrite (countIf_one c) in H'.
  match type of H' with context [countIf _ [?c']] =>
    replace (countIf isPending [c']) with 0%nat in H'
      by (rewrite countIf_one; now rewrite decide_False by discriminate) end.
  destruct (decide (MDMCommand.status c = CPending)); lia.
Qed.

(** X16: how the [pendingCommands] figure of the health report moves.  A
    check-in leaves it alone; a submission for a registered device, and
    every query or lock submission, adds exactly one; a request to the
    command endpoint never raises it and lowers it by two at most. *)
Theorem health_pending (r : request) (st : state) :
  let n := pendingCommands st in
  let n' := pendingCommands (fst (handle r st)) in
  match r with
  | PutCheckin _ _ _ => n' = n
  | PutMdm _ _ => (n' <= n <= n' + 2)%nat
  | PostCommands udid _ _ _ _ =>
      n' = if getDevice udid st is Some _ then S n else n
  | PostQuery _ _ _ _ | PostLock _ _ _ _ _ => n' = S n
  end.
Proof.
  cbv zeta. destruct r as [xml uuid now|xml now|udid ct p uuid now
                          |udid q uuid now|udid m pn uuid now]; cbn [handle].
  - unfold pendingCommands, allCommands. now rewrite commandQueue_checkin.
  - unfold mdm. destruct (devices st !! _) as [d|]; [|cbn [fst]; lia].
    repeat case_decide.
    + match goal with |- context [sendNext ?l ?k ?t ?s] =>
        pose proof (pendingCommands_sendNext l k t s) as H1 end.
      rewrite pendingCommands_devices in H1.
      destruct (getNextCommand _ _); lia.
    + match goal with |- context [processCommandResponse ?k ?r ?t ?s] =>
        pose proof (pendingCommands_processCommandResponse k r t s) as H2 end.
      rewrite pendingCommands_devices in H2.
      resolved; cbn [fst] in *; [|lia].
      match goal with |- context [sendNext ?l ?k ?t ?s] =>
        pose proof (pendingCommands_sendNext l k t s) as H1 end.
      destruct (getNextCommand _ _); lia.
    + cbn [fst]. rewrite pendingCommands_devices. lia.
  - unfold postCommands, getDevice. destruct (devices st !! _); cbn [fst].
    + now apply pendingCommands_pushCommand.
    + reflexivity.
  - unfold postQuery. cbn [fst]. now apply pendingCommands_pushCommand.
  - unfold postLock. cbn [fst]. now apply pendingCommands_pushCommand.
Qed.

(** X17: the [devices] figure of the health report.  It never goes down,
    and it goes up, by one, only at an Authenticate check-in whose UDID
    has no record yet. *)
Theorem health_devices (r : request) (st : state) :
  size (devices (fst (handle r st))) = size (devices st) \/
  (size (devices (fst (handle r st))) = S (size (devices st)) /\
   exists xml uuid now,
     r = PutCheckin xml uuid now /\
     parsePlist xml !! "MessageType" = Some (SStr "Authenticate") /\
     devices st !! (parsePlist xml !! "UDID") = None).
Proof.
  destruct r as [xml uuid now|xml now|udid ct p uuid now
                |udid q uuid now|udid m pn uuid now]; cbn [handle].
  - unfold checkin. repeat case_decide.
    + unfold handleAuthenticate. cbn [fst devices].
      destruct (devices st !! (parsePlist xml !! "UDID")) as [d|] eqn:Hd.
      * left. apply map_size_insert_Some. now exists d.
      * right. split; [now apply map_size_insert_None|].
        exists xml, uuid, now. auto.
    + left. unfold handleTokenUpdate.
      destruct (devices st !! _) as [d|] eqn:Hd; [|reflexivity].
      cbn [fst devices]. apply map_size_insert_Some. now exists d.
    + left. unfold handleCheckOut.
      destruct (devices st !! _) as [d|] eqn:Hd; [|reflexivity].
      cbn [fst devices]. apply map_size_insert_Some. now exists d.
    + now left.
  - left.
    destruct (devices st !! (parsePlist xml !! "UDID")) as [d|] eqn:Hd.
    + rewrite (mdm_devices _ _ _ _ Hd).
      apply map_size_insert_Some. now exists d.
    + unfold mdm. now rewrite Hd.
  - left. unfold postCommands. now destruct (devices st !! _).
  - now left.
  - now left.
Qed.

(* ===================================================================== *)
(** * Command requests and identifiers *)
(* ===================================================================== *)

Lemma getOwn_objSet (k k' : string) (v : jsval) (o : list (string * jsval)) :
  getOwn k (objSet k' v o) = if String.eqb k' k then Some v else getOwn k o.
Proof.
  induction o as [|[k0 v0] o IH]; cbn [objSet getOwn]; [reflexivity|].
  destruct (String.eqb k' k0) eqn:E; cbn [getOwn].
  - apply String.eqb_eq in E as ->. now destruct (String.eqb k0 k).
  - destruct (precedes k' k0); cbn [getOwn]; [reflexivity|].
    rewrite IH. destruct (String.eqb k0 k) eqn:E'; [|reflexivity].
    apply String.eqb_eq in E' as ->. now rewrite E.
Qed.

Lemma getOwn_None (k : string) (l : list (string * jsval)) :
  k ∉ fst <$> l -> getOwn k l = None.
Proof.
  induction l as [|[k0 v0] l IH]; cbn; [reflexivity|].
  intros Hk. apply not_elem_of_cons in Hk as [Hne Hk].
  destruct (String.eqb_spec k0 k); [congruence|]. now apply IH.
Qed.

Lemma getOwn_spread (k : string) (l o : list (string * jsval)) :
  NoDup (fst <$> l) ->
  getOwn k (fold_left (fun acc kv => objSet (fst kv) (snd kv) acc) l o)
  = match getOwn k l with Some v => Some v | None => getOwn k o end.
Proof.
  revert o; induction l as [|[k0 v0] l IH]; intros o Hnd; [reflexivity|].
  cbn [fmap list_fmap fst] in Hnd. apply list.NoDup_cons in Hnd as [Hk0 Hnd].
  cbn [fold_left fst snd getOwn]. rewrite IH by exact Hnd.
  rewrite getOwn_objSet. destruct (String.eqb_spec k0 k) as [->|_].
  - now rewrite getOwn_None.
  - reflexivity.
Qed.

(** X18: the [Command] dictionary sent to a device holds each property of
    the payload object, and the command type as [RequestType] unless the
    payload has a property of that name, which then takes its place. *)
Theorem buildCommandRequest_fields (command : MDMCommand.t)
    (payload : list (string * jsval)) :
  MDMCommand.payload command = JObj payload ->
  NoDup (fst <$> payload) ->
  exists o,
    buildCommandRequest command
    = [("CommandUUID", JStr (MDMCommand.id command)); ("Command", JObj o)] /\
    forall k,
      getOwn k o
      = match getOwn k payload with
        | Some v => Some v
        | None => if String.eqb "RequestType" k
                  then Some (MDMCommand.commandType command) else None
        end.
Proof.
  intros Hp Hnd. eexists. split; [reflexivity|].
  intros k. rewrite Hp. unfold spread. cbn [ownEntries].
  now rewrite getOwn_spread.
Qed.

Lemma buildCommandRequest_fields_witness :
  exists o,
    buildCommandRequest
      (newCommand Sample.uuid1 "A1" (JStr "DeviceLock")
         (JObj [("PIN", JStr "1234"); ("RequestType", JStr "EraseDevice")]) 3)
    = [("CommandUUID", JStr (Str.toUpperCase Sample.uuid1));
       ("Command", JObj o)] /\
    getOwn "RequestType" o = Some (JStr "EraseDevice").
Proof.
  destruct (buildCommandRequest_fields
              (newCommand Sample.uuid1 "A1" (JStr "DeviceLock")
                 (JObj [("PIN", JStr "1234");
                        ("RequestType", JStr "EraseDevice")]) 3)
              [("PIN", JStr "1234"); ("RequestType", JStr "EraseDevice")])
    as (o & Ho & Hk).
  - reflexivity.
  - refine (bool_decide_unpack _ _). vm_compute. exact I.
  - exists o. split; [exact Ho|]. now rewrite Hk.
Defined.

(** X19: an Authenticate check-in whose UDID does not read as a string (the
    text of the element reads as a number, or the element is [<true/>] or
    [<false/>], or there is none) registers the device under a key that
    no route parameter equals: the device and command routes of the REST
    API answer for every UDID as they did before. *)
Theorem authenticate_without_string_udid (xml uuid : string) (now : time)
    (st : state) :
  parsePlist xml !! "MessageType" = Some (SStr "Authenticate") ->
  (forall s, parsePlist xml !! "UDID" <> Some (SStr s)) ->
  let st' := fst (checkin xml uuid now st) in
  (exists device,
     devices st' !! (parsePlist xml !! "UDID") = Some device /\
     MDMDevice.enrollmentStatus device = Pending) /\
  forall udid,
    getDevice udid st' = getDevice udid st /\
    getCommands udid st' = getCommands udid st /\
    (getDevice udid st = None ->
     forall commandType payload uuid' now',
       postCommands udid commandType payload uuid' now' st'
       = (st', mkResponse 404 (JsonError "Device not found"))).
Proof.
  intros Hm Hu. cbv zeta. unfold checkin. rewrite decide_True by exact Hm.
  unfold handleAuthenticate. cbn [fst]. split.
  - eexists. split; [apply lookup_insert_eq|reflexivity].
  - intros udid.
    assert (Hne : parsePlist xml !! "UDID" <> Some (SStr udid)) by apply Hu.
    unfold getDevice, getCommands. cbn [devices commandQueue].
    split; [now apply lookup_insert_ne|]. split; [reflexivity|].
    intros Hn ct p uuid' now'. unfold postCommands. cbn [devices].
    now rewrite lookup_insert_ne, Hn.
Qed.

Lemma authenticate_without_string_udid_witness :
  getDevice "0042"
    (fst (checkin
            ("<dict><key>MessageType</key><string>Authenticate</string>"
             +:+ "<key>UDID</key><string>0042</string></dict>")
            Sample.uuid0 1 initial))
  = None.
Proof.
  refine (proj1 (proj2 (authenticate_without_string_udid
            ("<dict><key>MessageType</key><string>Authenticate</string>"
             +:+ "<key>UDID</key><string>0042</string></dict>")
            Sample.uuid0 1 initial _ _) "0042")).
  - vm_compute. reflexivity.
  - intros s. vm_compute. discriminate.
Defined.

(* ===================================================================== *)
(** * Agent reports *)
(* ===================================================================== *)

Lemma sameValueZero_string (k : jsval) (s : string) :
  sameValueZero k (JStr s) = true <-> k = JStr s.
Proof.
  split.
  - destruct k; try discriminate. cbn. now intros ->%String.eqb_eq.
  - intros ->. cbn. apply String.eqb_refl.
Qed.

Lemma mapGet_mapSet_same (s : string) (v : storedReport) (m : agentStore) :
  mapGet (JStr s) (mapSet (JStr s) v m) = Some v.
Proof.
  induction m as [|[k0 v0] m IH]; cbn.
  - now rewrite String.eqb_refl.
  - destruct (sameValueZero k0 (JStr s)) eqn:E; cbn; now rewrite E.
Qed.

Lemma mapGet_mapSet_other (k : jsval) (s : string) (v : storedReport)
    (m : agentStore) :
  k <> JStr s ->
  mapGet (JStr s) (mapSet k v m) = mapGet (JStr s) m.
Proof.
  intros Hk. induction m as [|[k0 v0] m IH]; cbn.
  - destruct (sameValueZero k (JStr s)) eqn:E; [|reflexivity].
    now apply sameValueZero_string in E.
  - destruct (sameValueZero k0 k) eqn:E; cbn.
    + destruct (sameValueZero k0 (JStr s)) eqn:E'; [|reflexivity].
      apply sameValueZero_string in E' as ->.
      destruct k; try discriminate. cbn in E.
      apply String.eqb_eq in E as ->. contradiction.
    + now rewrite IH.
Qed.

Lemma mapSet_keys (k : jsval) (v : storedReport) (m : agentStore) :
  fst <$> mapSet k v m
  = if mapGet k m is Some _ then fst <$> m else (fst <$> m) ++ [k].
Proof.
  induction m as [|[k0 v0] m IH]; cbn; [reflexivity|].
  destruct (sameValueZero k0 k); cbn; [reflexivity|].
  rewrite IH. now destruct (mapGet k m).
Qed.

Lemma mapSet_fresh (k : jsval) (v : storedReport) (m : agentStore) :
  (forall k', sameValueZero k' k = false) ->
  mapSet k v m = m ++ [(k, v)].
Proof.
  intros Hk. induction m as [|[k0 v0] m IH]; cbn; [reflexivity|].
  now rewrite Hk, IH.
Qed.

Lemma fst_postAgentReport (report : list (string * jsval)) (now : time)
    (store : agentStore) :
  jsTruthy (getProp "serialNumber" report) = true ->
  jsTruthy (getProp "hardwareUUID" report) = true ->
  fst (postAgentReport report now store)
  = mapSet (getProp "serialNumber" report) (withLastReportedAt report now)
      store.
Proof.
  intros H1 H2. unfold postAgentReport. rewrite H1, H2. cbn [negb orb].
  now destruct (forallb stringifies (logged report)).
Qed.

Lemma getField_setField (k k' : string) (v : reportValue) (o : storedReport) :
  getField k' (setField k v o)
  = if String.eqb k k' then Some v else getField k' o.
Proof.
  induction o as [|[k0 v0] o IH]; cbn.
  - reflexivity.
  - destruct (String.eqb k0 k) eqn:E; cbn.
    + apply String.eqb_eq in E as ->. now destruct (String.eqb k k').
    + rewrite IH. destruct (String.eqb k0 k') eqn:E'; [|reflexivity].
      apply String.eqb_eq in E' as ->. now rewrite String.eqb_sym, E.
Qed.

(** X20: a report that names its serial number as a string and carries a
    hardware UUID is, from then on, what the route of that serial number
    serves, whether the POST was answered 201 or 500; the reports of the
    other serial numbers are served as before. *)
Theorem agent_report_round_trip (report : list (string * jsval))
    (now : time) (store : agentStore) (serialNumber s : string) :
  getProp "serialNumber" report = JStr serialNumber ->
  serialNumber <> EmptyString ->
  jsTruthy (getProp "hardwareUUID" report) = true ->
  getAgentReport s (fst (postAgentReport report now store))
  = if decide (s = serialNumber)
    then mkAgentResponse 200 (AgentReport (withLastReportedAt report now))
    else getAgentReport s store.
Proof.
  intros Hs Hne Hh. rewrite fst_postAgentReport, Hs; try assumption.
  - unfold getAgentReport. destruct (decide (s = serialNumber)) as [->|Hd].
    + now rewrite mapGet_mapSet_same.
    + rewrite mapGet_mapSet_other; [reflexivity|congruence].
  - rewrite Hs. now destruct serialNumber.
Qed.

Lemma agent_report_round_trip_witness :
  getAgentReport "C02X"
    (fst (postAgentReport
            [("serialNumber", JStr "C02X"); ("hardwareUUID", JStr "H1");
             ("lastReportedAt", JStr "never")] 7 []))
  = mkAgentResponse 200
      (AgentReport [("serialNumber", RJson (JStr "C02X"));
                    ("hardwareUUID", RJson (JStr "H1"));
                    ("lastReportedAt", RDate 7)]).
Proof.
  apply (agent_report_round_trip
           [("serialNumber", JStr "C02X"); ("hardwareUUID", JStr "H1");
            ("lastReportedAt", JStr "never")] 7 [] "C02X" "C02X").
  - reflexivity.
  - discriminate.
  - reflexivity.
Defined.

Lemma getField_copy (k : string) (report : list (string * jsval)) :
  getField k (map (fun kv => (fst kv, RJson (snd kv))) report)
  = RJson <$> getOwn k report.
Proof.
  induction report as [|[k0 v0] report IH]; cbn; [reflexivity|].
  now destruct (String.eqb k0 k).
Qed.

(** X21: in a stored report [lastReportedAt] is the time of the server,
    also when the agent sent a property of that name; every other
    property is the one the agent sent, and none is added. *)
Theorem withLastReportedAt_fields (report : list (string * jsval))
    (now : time) (k : string) :
  getField k (withLastReportedAt report now)
  = if String.eqb "lastReportedAt" k then Some (RDate now)
    else RJson <$> getOwn k report.
Proof.
  unfold withLastReportedAt. rewrite getField_setField.
  destruct (String.eqb "lastReportedAt" k); [reflexivity|].
  apply getField_copy.
Qed.

(** X22: a report whose serial number is not a string (a number, [true],
    an array or an object pass the check of the route) is stored under a
    key that no route parameter equals: every lookup by serial number
    answers as before.  When it is an array or an object the key is new
    each time, and the listing grows by one entry at every such report. *)
Theorem agent_report_unreachable (report : list (string * jsval))
    (now : time) (store : agentStore) :
  (forall s, getProp "serialNumber" report <> JStr s) ->
  jsTruthy (getProp "serialNumber" report) = true ->
  jsTruthy (getProp "hardwareUUID" report) = true ->
  let store' := fst (postAgentReport report now store) in
  (forall s, getAgentReport s store' = getAgentReport s store) /\
  (match getProp "serialNumber" report with
   | JArr _ | JObj _ =>
       store' = store ++ [(getProp "serialNumber" report,
                           withLastReportedAt report now)]
   | _ => True
   end).
Proof.
  intros Hs Ht Hh. cbv zeta. rewrite fst_postAgentReport by assumption. split.
  - intros s. unfold getAgentReport. now rewrite mapGet_mapSet_other.
  - destruct (getProp "serialNumber" report) eqn:E; try exact I.
    + apply mapSet_fresh. now intros [].
    + apply mapSet_fresh. now intros [].
Qed.

Lemma agent_report_unreachable_witness :
  getAgentReport "42"
    (fst (postAgentReport
            [("serialNumber", JNum (NInt 42)); ("hardwareUUID", JStr "H1")]
            7 []))
  = getAgentReport "42" [].
Proof.
  apply (agent_report_unreachable
           [("serialNumber", JNum (NInt 42)); ("hardwareUUID", JStr "H1")]
           7 []).
  - discriminate.
  - reflexivity.
  - reflexivity.
Defined.

(** X23: the listing of the reports has one entry for each serial number,
    in the order of the first report of each: an accepted report for a
    serial number already stored takes the place of the earlier one, and
    one for a new serial number goes to the end. *)
Theorem agent_reports_listing (report : list (string * jsval)) (now : time)
    (store : agentStore) :
  jsTruthy (getProp "serialNumber" report) = true ->
  jsTruthy (getProp "hardwareUUID" report) = true ->
  fst <$> fst (postAgentReport report now store)
  = if mapGet (getProp "serialNumber" report) store is Some _
    then fst <$> store
    else (fst <$> store) ++ [getProp "serialNumber" report].
Proof.
  intros Hs Hh. rewrite fst_postAgentReport by assumption. apply mapSet_keys.
Qed.

Lemma agent_reports_listing_witness :
  fst <$> fst (postAgentReport
                 [("serialNumber", JStr "B"); ("hardwareUUID", JStr "H2")] 9
                 [(JStr "A", []); (JStr "B", []); (JStr "C", [])])
  = [JStr "A"; JStr "B"; JStr "C"].
Proof.
  apply (agent_reports_listing
           [("serialNumber", JStr "B"); ("hardwareUUID", JStr "H2")] 9
           [(JStr "A", []); (JStr "B", []); (JStr "C", [])]);
    reflexivity.
Defined.

(** X24: a report answered with status 500 has been stored all the same:
    the route of its serial number serves it afterwards.  The status is
    500 when a logged property cannot be converted to a string. *)
Theorem agent_report_500_is_stored (report : list (string * jsval))
    (now : time) (store : agentStore) (serialNumber : string) :
  agentCode (snd (postAgentReport report now store)) = 500%nat ->
  getProp "serialNumber" report = JStr serialNumber ->
  getAgentReport serialNumber (fst (postAgentReport report now store))
  = mkAgentResponse 200 (AgentReport (withLastReportedAt report now)).
Proof.
  intros Hc Hs. unfold postAgentReport in *.
  destruct (negb (jsTruthy (getProp "serialNumber" report))
            || negb (jsTruthy (getProp "hardwareUUID" report)));
    [discriminate Hc|].
  destruct (forallb stringifies (logged report)); [discriminate Hc|].
  cbn [fst]. rewrite Hs. unfold getAgentReport.
  now rewrite mapGet_mapSet_same.
Qed.

Lemma agent_report_500_is_stored_witness :
  agentCode
    (snd (postAgentReport
            [("serialNumber", JStr "C02X"); ("hardwareUUID", JStr "H1");
             ("deviceName", JObj [("toString", JNull)])] 7 [])) = 500%nat /\
  getAgentReport "C02X"
    (fst (postAgentReport
            [("serialNumber", JStr "C02X"); ("hardwareUUID", JStr "H1");
             ("deviceName", JObj [("toString", JNull)])] 7 []))
  = mkAgentResponse 200
      (AgentReport [("serialNumber", RJson (JStr "C02X"));
                    ("hardwareUUID", RJson (JStr "H1"));
                    ("deviceName", RJson (JObj [("toString", JNull)]));
                    ("lastReportedAt", RDate 7)]).
Proof.
  split; [reflexivity|].
  apply (agent_report_500_is_stored
           [("serialNumber", JStr "C02X"); ("hardwareUUID", JStr "H1");
            ("deviceName", JObj [("toString", JNull)])] 7 [] "C02X");
    reflexivity.
Defined.
